(** * Document-at-a-time scoring notebook (practicum-1/4_Daat_scoring.ipynb)

    A shallow embedding of the notebook's code cells.

    - Python [float]s are idealised as real numbers ([R]); [math.log] and
      [math.sqrt] raise [ValueError] outside their domain and [/] raises
      [ZeroDivisionError] on a zero divisor, as in Python.  Rounding,
      underflow and the [OverflowError] of a quotient beyond the float range
      have no counterpart here: a statement that a cell or a call returns is
      a statement about exact arithmetic.
    - A [dict] is an insertion-ordered association list with unique keys.
    - Posting lists are mutable Python lists: they live in a heap of list
      objects and are referred to by location, so that [list(...)] (a copy)
      and plain references can be told apart.
    - The module-level names of the notebook ([td_matrix], [NUM_DOCS],
      [inv_idx], [doclen], [idx], [dnorm]) are the fields of the program
      state; functions read them when they are called. *)

From Stdlib Require Import Reals Lra Lia String Arith Bool List Sorted.
Import ListNotations.

Open Scope R_scope.

(** ** Python dictionaries *)

Class Key (K : Type) : Type := {
  key_eqb : K -> K -> bool;
  key_eqb_spec : forall a b, reflect (a = b) (key_eqb a b)
}.

#[export] Instance nat_Key : Key nat :=
  {| key_eqb := Nat.eqb; key_eqb_spec := Nat.eqb_spec |}.

#[export] Instance string_Key : Key string :=
  {| key_eqb := String.eqb; key_eqb_spec := String.eqb_spec |}.

Definition dict (K V : Type) : Type := list (K * V).

Module Dict.
Section Ops.
Context {K V : Type} `{Key K}.

(** [d.get(k)] *)
Fixpoint get (k : K) (d : dict K V) : option V :=
  match d with
  | [] => None
  | (k', v) :: d' => if key_eqb k k' then Some v else get k d'
  end.

(** [d.get(k, dflt)] *)
Definition get_default (k : K) (dflt : V) (d : dict K V) : V :=
  match get k d with Some v => v | None => dflt end.

(** [d[k] = v]: an existing key keeps its position, a new key goes last. *)
Fixpoint setitem (k : K) (v : V) (d : dict K V) : dict K V :=
  match d with
  | [] => [(k, v)]
  | (k', v') :: d' =>
      if key_eqb k k' then (k', v) :: d' else (k', v') :: setitem k v d'
  end.

(** [d.keys()] and [d.items()], in insertion order. *)
Definition keys (d : dict K V) : list K := map fst d.
Definition items (d : dict K V) : list (K * V) := d.
End Ops.
End Dict.

(** [Counter(query)] turned into a plain dict: term -> number of occurrences,
    keys in order of first occurrence. *)
Definition Counter (query : list string) : dict string nat :=
  fold_left (fun c t => Dict.setitem t (Dict.get_default t 0%nat c + 1)%nat c)
            query [].

(** [enumerate(vec)] *)
Definition enumerate {A : Type} (vec : list A) : list (nat * A) :=
  combine (seq 0 (length vec)) vec.

(** ** Program state *)

(** A posting is a [(doc_id, freq)] pair. *)
Definition posting : Type := (nat * nat)%type.

(** Location of a list object in the heap. *)
Abbreviation loc := nat (only parsing).

(** [class InvIndex]: its only attribute is [self.idx]. *)
Record InvIndex : Type := mkInvIndex { idx_contents : dict string loc }.

Record state : Type := mkState {
  td_matrix : dict string (list nat);
  NUM_DOCS : nat;
  inv_idx : dict string loc;
  doclen : dict nat nat;
  idx : InvIndex;
  dnorm : dict nat R;
  heap : list (list posting)
}.

Definition with_inv_idx (s : state) (d : dict string loc) : state :=
  mkState (td_matrix s) (NUM_DOCS s) d (doclen s) (idx s) (dnorm s) (heap s).
Definition with_doclen (s : state) (d : dict nat nat) : state :=
  mkState (td_matrix s) (NUM_DOCS s) (inv_idx s) d (idx s) (dnorm s) (heap s).
Definition with_idx (s : state) (i : InvIndex) : state :=
  mkState (td_matrix s) (NUM_DOCS s) (inv_idx s) (doclen s) i (dnorm s) (heap s).
Definition with_dnorm (s : state) (d : dict nat R) : state :=
  mkState (td_matrix s) (NUM_DOCS s) (inv_idx s) (doclen s) (idx s) d (heap s).
Definition with_heap (s : state) (h : list (list posting)) : state :=
  mkState (td_matrix s) (NUM_DOCS s) (inv_idx s) (doclen s) (idx s) (dnorm s) h.

(** The state after cells 2 and 3: the literal term-document matrix and the
    document count; nothing else assigned yet. *)
Definition init (td : dict string (list nat)) (n : nat) : state :=
  mkState td n [] [] (mkInvIndex []) [] [].

(** ** The monad of the interpreter: state and exceptions *)

Inductive exn : Type := ZeroDivisionError | KeyError | ValueError.

Inductive result (A : Type) : Type :=
| Ok (a : A)
| Raise (e : exn).
Arguments Ok {A} a.
Arguments Raise {A} e.

Definition M (A : Type) : Type := state -> result A * state.

Definition ret {A : Type} (a : A) : M A := fun s => (Ok a, s).

Definition bind {A B : Type} (m : M A) (k : A -> M B) : M B :=
  fun s => match m s with
           | (Ok a, s') => k a s'
           | (Raise e, s') => (Raise e, s')
           end.

Definition raise {A : Type} (e : exn) : M A := fun s => (Raise e, s).

Definition gets {A : Type} (f : state -> A) : M A := fun s => (Ok (f s), s).

Definition modify (f : state -> state) : M unit := fun s => (Ok tt, f s).

Declare Scope py_scope.
Delimit Scope py_scope with py.
Notation "x <- c1 ;; c2" := (bind c1 (fun x => c2))
  (at level 100, c1 at next level, right associativity) : py_scope.
Notation "' p <- c1 ;; c2" := (bind c1 (fun x => match x with p => c2 end))
  (at level 100, p pattern, c1 at next level, right associativity) : py_scope.
Notation "c1 ;; c2" := (bind c1 (fun _ => c2))
  (at level 100, right associativity) : py_scope.
Open Scope py_scope.

(** A [for] loop whose body updates local variables [acc]. *)
Fixpoint foldM {A B : Type} (body : B -> A -> M B) (l : list A) (acc : B) : M B :=
  match l with
  | [] => ret acc
  | x :: l' => acc' <- body acc x ;; foldM body l' acc'
  end.

(** A [for] loop whose body only acts on the state. *)
Fixpoint for_ {A : Type} (l : list A) (body : A -> M unit) : M unit :=
  match l with
  | [] => ret tt
  | x :: l' => body x ;; for_ l' body
  end.

(** [d[k]] *)
Definition getitem {K V : Type} `{Key K} (k : K) (d : dict K V) : M V :=
  match Dict.get k d with
  | Some v => ret v
  | None => raise KeyError
  end.

(** [x / y] *)
Definition pydiv (x y : R) : M R :=
  if Req_dec_T y 0 then raise ZeroDivisionError else ret (x / y).

(** [math.log(x)] *)
Definition pylog (x : R) : M R :=
  if Rlt_dec 0 x then ret (ln x) else raise ValueError.

(** [math.sqrt(x)] *)
Definition pysqrt (x : R) : M R :=
  if Rle_dec 0 x then ret (sqrt x) else raise ValueError.

(** ** List objects *)

Fixpoint update {A : Type} (n : nat) (x : A) (l : list A) : list A :=
  match l, n with
  | [], _ => []
  | _ :: l', O => x :: l'
  | y :: l', S n' => y :: update n' x l'
  end.

(** Contents of the list object at [p]. *)
Definition contents (s : state) (p : loc) : list posting := nth p (heap s) [].

(** A list display or [list(...)]: a new list object. *)
Definition alloc (l : list posting) : M loc :=
  fun s => (Ok (length (heap s)), with_heap s (heap s ++ [l])).

(** [len(p)] *)
Definition len (p : loc) : M nat := fun s => (Ok (length (contents s p)), s).

(** [list(p)] *)
Definition list_copy (p : loc) : M loc :=
  l <- gets (fun s => contents s p) ;; alloc l.

(** [p.append(x)] *)
Definition append (p : loc) (x : posting) : M unit :=
  modify (fun s => with_heap s (update p (contents s p ++ [x]) (heap s))).

(** ** Cell 4: the inverted index and the document lengths *)

Definition cell4 : M unit :=
  modify (fun s => with_inv_idx s []) ;;
  modify (fun s => with_doclen s []) ;;
  td <- gets td_matrix ;;
  for_ (Dict.items td) (fun '(term, vec) =>
    p <- alloc [] ;;
    modify (fun s => with_inv_idx s (Dict.setitem term p (inv_idx s))) ;;
    for_ (enumerate vec) (fun '(doc_id, freq) =>
      if (0 <? freq)%nat then
        d <- gets inv_idx ;;
        q <- getitem term d ;;
        append q (doc_id, freq) ;;
        modify (fun s =>
          with_doclen s
            (Dict.setitem doc_id (Dict.get_default doc_id 0%nat (doclen s) + freq)%nat
                          (doclen s)))
      else ret tt)).

(** ** Cell 5: class InvIndex *)

(** [self.idx.get(term, [])]: the default list is built before the lookup. *)
Definition postings (self : InvIndex) (term : string) : M loc :=
  dflt <- alloc [] ;;
  ret (Dict.get_default term dflt (idx_contents self)).

(** ** Cell 6 *)

Definition cell6 : M unit :=
  modify (fun s => with_idx s (mkInvIndex (inv_idx s))).

(** ** Cell 7: IDF *)

Definition idf (term : string) : M R :=
  i <- gets idx ;;
  p <- postings i term ;;
  n <- len p ;;
  if (0 <? n)%nat then
    N <- gets NUM_DOCS ;;
    i' <- gets idx ;;
    p' <- postings i' term ;;
    n' <- len p' ;;
    x <- pydiv (INR N) (INR n') ;;
    pylog x
  else ret 0.

(** ** Cell 8: the document normalizers *)

(** The body of the inner loop over [enumerate(vec)]. *)
Definition dnorm_add (term : string) (item : nat * nat) : M unit :=
  let '(doc_id, freq) := item in
  if (0 <? freq)%nat then
    dl <- gets doclen ;;
    n <- getitem doc_id dl ;;
    r <- pydiv (INR freq) (INR n) ;;
    w <- idf term ;;
    let tfidf := r * w in
    modify (fun s =>
      with_dnorm s
        (Dict.setitem doc_id (Dict.get_default doc_id 0 (dnorm s) + tfidf ^ 2)
                      (dnorm s)))
  else ret tt.

(** The body of the final loop over [dnorm.items()]; an entry is only
    rewritten when the loop is at it, so the items are read up front. *)
Definition dnorm_sqrt (item : nat * R) : M unit :=
  let '(doc_id, val) := item in
  r <- pysqrt val ;;
  modify (fun s => with_dnorm s (Dict.setitem doc_id r (dnorm s))).

Definition cell8 : M unit :=
  modify (fun s => with_dnorm s []) ;;
  td <- gets td_matrix ;;
  for_ (Dict.items td) (fun '(term, vec) =>
    for_ (enumerate vec) (dnorm_add term)) ;;
  dn <- gets dnorm ;;
  for_ (Dict.items dn) dnorm_sqrt.

(** The cells that build the global tables, in notebook order. *)
Definition notebook : M unit := cell4 ;; cell6 ;; cell8.

(** ** Cell 9: score_dt *)

(** The local variables of [score_dt] at its [return]. *)
Record locals : Type := mkLocals {
  qry : dict string nat;
  tfidf_q : dict string R;
  qnorm : R;
  plists : dict string loc;
  scores : dict nat R
}.

(** "precompute the query TFIDF scores and the query normalizer":
    the body of the loop over [qry.items()], then the whole step. *)
Definition weigh_term (query : list string) (acc : dict string R * R)
  (item : string * nat) : M (dict string R * R) :=
  let '(tfidf_q, qnorm) := acc in
  let '(term, freq) := item in
  tf <- pydiv (INR freq) (INR (length query)) ;;
  w <- idf term ;;
  let tfidf_q := Dict.setitem term (tf * w) tfidf_q in
  x <- getitem term tfidf_q ;;
  ret (tfidf_q, qnorm + x ^ 2).

Definition query_weights (query : list string) (qry : dict string nat)
  : M (dict string R * R) :=
  '(tfidf_q, qnorm) <- foldM (weigh_term query) (Dict.items qry) ([], 0) ;;
  qnorm <- pysqrt qnorm ;;
  ret (tfidf_q, qnorm).

(** "fetch the posting lists of each query term" *)
Definition fetch_term (index : InvIndex) (plists : dict string loc)
  (term : string) : M (dict string loc) :=
  p <- postings index term ;;
  c <- list_copy p ;;
  ret (Dict.setitem term c plists).

Definition fetch_plists (index : InvIndex) (qry : dict string nat)
  : M (dict string loc) :=
  foldM (fetch_term index) (Dict.keys qry) [].

(** "iterate through each document": the body of the loop over
    [range(NUM_DOCS)], then the loop. *)
Definition score_doc (qry : dict string nat) (tfidf_q : dict string R)
  (qnorm : R) (scores : dict nat R) (doc_id : nat) : M (dict nat R) :=
  f_d <- foldM (fun (f_d : dict string nat) term =>
                  ret (Dict.setitem term 0%nat f_d))
               (Dict.keys qry) [] ;;
  score <- foldM (fun score term =>
                    let tfidf_d := 0 in
                    w <- getitem term tfidf_q ;;
                    ret (score + w * tfidf_d))
                 (Dict.keys qry) 0 ;;
  dn <- gets dnorm ;;
  d <- getitem doc_id dn ;;
  v <- pydiv score (qnorm * d) ;;
  ret (Dict.setitem doc_id v scores).

Definition sweep (qry : dict string nat) (tfidf_q : dict string R) (qnorm : R)
  : M (dict nat R) :=
  N <- gets NUM_DOCS ;;
  foldM (score_doc qry tfidf_q qnorm) (seq 0 N) [].

Definition score_dt_locals (query : list string) (index : InvIndex) : M locals :=
  let qry := Counter query in
  '(tfidf_q, qnorm) <- query_weights query qry ;;
  plists <- fetch_plists index qry ;;
  scores <- sweep qry tfidf_q qnorm ;;
  ret (mkLocals qry tfidf_q qnorm plists scores).

Definition score_dt (query : list string) (index : InvIndex) : M (dict nat R) :=
  l <- score_dt_locals query index ;;
  ret (scores l).

(** ** The worked example *)

Definition example_td_matrix : dict string (list nat) :=
  [ ("beijing"%string, [0; 1; 0; 0; 1]%nat);
    ("dish"%string,    [0; 1; 0; 0; 1]%nat);
    ("duck"%string,    [3; 2; 2; 0; 1]%nat);
    ("rabbit"%string,  [0; 0; 1; 1; 0]%nat);
    ("recipe"%string,  [0; 0; 1; 1; 1]%nat);
    ("roast"%string,   [0; 0; 0; 0; 0]%nat) ].

Definition example_heap : list (list posting) :=
  [ [(1, 1); (4, 1)];
    [(1, 1); (4, 1)];
    [(0, 3); (1, 2); (2, 2); (4, 1)];
    [(2, 1); (3, 1)];
    [(2, 1); (3, 1); (4, 1)];
    [] ]%nat.

Definition example_inv_idx : dict string loc :=
  [ ("beijing", 0); ("dish", 1); ("duck", 2);
    ("rabbit", 3); ("recipe", 4); ("roast", 5) ]%string%nat.

Definition example_doclen : dict nat nat :=
  [ (1, 4); (4, 4); (0, 3); (2, 4); (3, 2) ]%nat.

(** [tfidf] of cell 8 for a term of frequency [freq] in a document of length
    [dl], the term occurring in [dfreq] of the 5 documents. *)
Definition example_tfidf (freq dl dfreq : nat) : R :=
  INR freq / INR dl * ln (INR 5 / INR dfreq).

Definition example_dnorm : dict nat R :=
  [ (1%nat, sqrt (0 + example_tfidf 1 4 2 ^ 2 + example_tfidf 1 4 2 ^ 2
                    + example_tfidf 2 4 4 ^ 2));
    (4%nat, sqrt (0 + example_tfidf 1 4 2 ^ 2 + example_tfidf 1 4 2 ^ 2
                    + example_tfidf 1 4 4 ^ 2 + example_tfidf 1 4 3 ^ 2));
    (0%nat, sqrt (0 + example_tfidf 3 3 4 ^ 2));
    (2%nat, sqrt (0 + example_tfidf 2 4 4 ^ 2 + example_tfidf 1 4 2 ^ 2
                    + example_tfidf 1 4 3 ^ 2));
    (3%nat, sqrt (0 + example_tfidf 1 2 2 ^ 2 + example_tfidf 1 2 3 ^ 2)) ].

(** The state after cells 4 and 6 ... *)
Definition example_indexed : state :=
  mkState example_td_matrix 5 example_inv_idx example_doclen
          (mkInvIndex example_inv_idx) [] example_heap.

(** ... and after cell 8; every call of [idf] left empty default lists
    behind. *)
Definition example_state : state :=
  mkState example_td_matrix 5 example_inv_idx example_doclen
          (mkInvIndex example_inv_idx) example_dnorm
          (example_heap ++ repeat [] 26).

Definition example_query : list string :=
  ["beijing"%string; "duck"%string; "recipe"%string].

(** * Vocabulary of the statements *)

(** [s] with the list objects [k] allocated after those it has; nothing
    else differs. *)
Definition grow (s : state) (k : list (list posting)) : state :=
  with_heap s (heap s ++ k).

(** [s'] is [s] after some list objects were allocated. *)
Definition extends (s s' : state) : Prop := exists k, s' = grow s k.

(** [s'] is [s] after some empty list objects were allocated. *)
Definition extends_empty (s s' : state) : Prop :=
  exists k, Forall (fun l => l = []) k /\ s' = grow s k.

(** Document frequency of a term: the length of its posting list in the
    global index [idx]. *)
Definition df (s : state) (term : string) : nat :=
  match Dict.get term (idx_contents (idx s)) with
  | Some p => length (contents s p)
  | None => 0%nat
  end.

(** The value [idf] computes when it returns. *)
Definition idf_val (s : state) (term : string) : R :=
  if (0 <? df s term)%nat then ln (INR (NUM_DOCS s) / INR (df s term)) else 0.

(** What one round of the loop over [qry.items()] leaves in [tfidf_q] and
    [qnorm]; [n] is [len(query)]. *)
Definition weights_step (s : state) (n : nat) (acc : dict string R * R)
  (item : string * nat) : dict string R * R :=
  let w := INR (snd item) / INR n * idf_val s (fst item) in
  (Dict.setitem (fst item) w (fst acc), snd acc + w ^ 2).

Definition weights_val (s : state) (query : list string) (qry : dict string nat)
  : dict string R * R :=
  fold_left (weights_step s (length query)) qry ([], 0).

(** Every list object the index refers to is allocated. *)
Definition index_wf (s : state) (index : InvIndex) : Prop :=
  forall t p, Dict.get t (idx_contents index) = Some p -> (p < length (heap s))%nat.

(** The posting list [index.postings(term)] denotes in state [s]. *)
Definition index_postings (s : state) (index : InvIndex) (term : string)
  : list posting :=
  match Dict.get term (idx_contents index) with
  | Some p => contents s p
  | None => []
  end.

(** The copies in [plists] are list objects that did not exist in [s0]; when
    the index is well formed they hold what the index held in [s0]. *)
Definition private_copies (s0 : state) (index : InvIndex)
  (plists : dict string loc) (s : state) : Prop :=
  forall t p, Dict.get t plists = Some p ->
    (length (heap s0) <= p < length (heap s))%nat /\
    (index_wf s0 index -> contents s p = index_postings s0 index t).

(** Every term of [terms] has an entry in [tfidf_q]. *)
Definition has_weights (tfidf_q : dict string R) (terms : list string) : bool :=
  forallb (fun t => match Dict.get t tfidf_q with Some _ => true | None => false end)
          terms.

(** The scores after the sweep has gone through [docs]. *)
Definition zero_after (docs : list nat) (scores : dict nat R) : dict nat R :=
  fold_left (fun sc d => Dict.setitem d 0 sc) docs scores.

(** The mapping [{0: 0, ..., n-1: 0}]. *)
Definition zero_scores (n : nat) : dict nat R := map (fun d => (d, 0)) (seq 0 n).

(** A document the sweep gets past: it has a normalizer and the product of
    the two normalizers is not zero. *)
Definition scorable (s : state) (qnorm : R) (doc_id : nat) : Prop :=
  exists d, Dict.get doc_id (dnorm s) = Some d /\ qnorm * d <> 0.

(** The exception the sweep raises at a document it cannot score. *)
Definition doc_failure (s : state) (qnorm : R) (doc_id : nat) (e : exn) : Prop :=
  match Dict.get doc_id (dnorm s) with
  | None => e = KeyError
  | Some d => qnorm * d = 0 /\ e = ZeroDivisionError
  end.

(** A computation that, whatever its outcome, only allocates list objects:
    the global tables and the list objects that were there stay as they are. *)
Definition frames {A : Type} (m : M A) : Prop :=
  forall s r s', m s = (r, s') -> extends s s'.

(** [tfidf_q] of a term occurring once among the 3 query terms and in
    [dfreq] of the 5 documents. *)
Definition example_weight (dfreq : nat) : R :=
  INR 1 / INR 3 * ln (INR 5 / INR dfreq).

Definition example_tfidf_q : dict string R :=
  [ ("beijing"%string, example_weight 2);
    ("duck"%string, example_weight 4);
    ("recipe"%string, example_weight 3) ].

Definition example_qnorm : R :=
  sqrt (0 + example_weight 2 ^ 2 + example_weight 4 ^ 2 + example_weight 3 ^ 2).

(** The private copies: each [postings] call first leaves its empty default
    list, then [list(...)] makes the copy. *)
Definition example_plists : dict string loc :=
  [ ("beijing", 39); ("duck", 41); ("recipe", 43) ]%string%nat.

Definition example_locals : locals :=
  mkLocals [ ("beijing", 1); ("duck", 1); ("recipe", 1) ]%string%nat
           example_tfidf_q example_qnorm example_plists
           [ (0%nat, 0); (1%nat, 0); (2%nat, 0); (3%nat, 0); (4%nat, 0) ].

Definition example_final : state :=
  grow example_state
       (repeat [] 6 ++
        [ []; [(1, 1); (4, 1)];
          []; [(0, 3); (1, 2); (2, 2); (4, 1)];
          []; [(2, 1); (3, 1); (4, 1)] ]%nat).

(** Two documents; document 0 is empty, document 1 is the single word "a". *)
Definition sparse_td_matrix : dict string (list nat) :=
  [ ("a"%string, [0; 1]%nat) ].

Definition sparse_state : state :=
  mkState sparse_td_matrix 2
          [("a"%string, 0%nat)] [(1%nat, 1%nat)]
          (mkInvIndex [("a"%string, 0%nat)])
          [ (1%nat, sqrt (0 + (INR 1 / INR 1 * ln (INR 2 / INR 1)) ^ 2)) ]
          [ [(1%nat, 1%nat)]; []; [] ].

(** One document, the single word "a": its only term occurs in every
    document of the collection. *)
Definition lone_td_matrix : dict string (list nat) :=
  [ ("a"%string, [1]%nat) ].

(** A document the code cannot score for want of a usable normalizer: no
    entry in [dnorm] (a document without terms), or an entry that is 0. *)
Definition degenerate (s : state) (doc_id : nat) (e : exn) : Prop :=
  match Dict.get doc_id (dnorm s) with
  | None => e = KeyError
  | Some d => d = 0 /\ e = ZeroDivisionError
  end.

(** What [idf(term)] evaluates to in state [s]: 0 for a term without
    postings; otherwise [math.log] of [NUM_DOCS / df], which is a domain
    error when [NUM_DOCS] is 0. *)
Definition idf_outcome (s : state) (term : string) : result R :=
  if (df s term =? 0)%nat then Ok 0
  else if (NUM_DOCS s =? 0)%nat then Raise ValueError
  else Ok (ln (INR (NUM_DOCS s) / INR (df s term))).

(** A state in which documents were never counted: [NUM_DOCS] is 0 although
    the index holds a posting. *)
Definition uncounted_state : state :=
  mkState [("a"%string, [1]%nat)] 0 [("a"%string, 0%nat)] [(0%nat, 1%nat)]
          (mkInvIndex [("a"%string, 0%nat)]) [] [[(0%nat, 1%nat)]].

(** The elements of [l] that are not in [seen], each once, in order of first
    occurrence. *)
Fixpoint first_occurrences (seen l : list string) : list string :=
  match l with
  | [] => []
  | x :: l' =>
      if in_dec string_dec x seen then first_occurrences seen l'
      else x :: first_occurrences (seen ++ [x]) l'
  end.

(** Sum of a list of reals. *)
Definition Rsum (l : list R) : R := fold_right Rplus 0 l.

(** The body of cell 4's inner loop over [enumerate(vec)], and the body of
    its outer loop over [td_matrix.items()]. *)
Definition index_entry (term : string) (item : nat * nat) : M unit :=
  let '(doc_id, freq) := item in
  if (0 <? freq)%nat then
    d <- gets inv_idx ;;
    q <- getitem term d ;;
    append q (doc_id, freq) ;;
    modify (fun s =>
      with_doclen s
        (Dict.setitem doc_id (Dict.get_default doc_id 0%nat (doclen s) + freq)%nat
                      (doclen s)))
  else ret tt.

Definition index_row (row : string * list nat) : M unit :=
  let '(term, vec) := row in
  p <- alloc [] ;;
  modify (fun s => with_inv_idx s (Dict.setitem term p (inv_idx s))) ;;
  for_ (enumerate vec) (index_entry term).

(** The [(doc_id, freq)] pairs of a row with [freq > 0], documents numbered
    from [a]. *)
Definition positive_entries (a : nat) (vec : list nat) : list posting :=
  filter (fun e => (0 <? snd e)%nat) (combine (seq a (length vec)) vec).

(** A table [d] after [d[doc] = d.get(doc, zero) + w doc freq] was run for
    every entry of [ps]. *)
Definition accum {V : Type} (zero : V) (add : V -> V -> V) (w : nat -> nat -> V)
  (ps : list posting) (d : dict nat V) : dict nat V :=
  fold_left (fun d e =>
               Dict.setitem (fst e)
                            (add (Dict.get_default (fst e) zero d) (w (fst e) (snd e))) d)
            ps d.

(** The same for all the rows of a matrix, [w] depending on the row's term. *)
Definition accum_rows {V : Type} (zero : V) (add : V -> V -> V)
  (w : string -> nat -> nat -> V) (td : dict string (list nat)) (d : dict nat V)
  : dict nat V :=
  fold_left (fun d row => accum zero add (w (fst row)) (positive_entries 0 (snd row)) d)
            td d.

(** [inv_idx] after the rows of [td] got the locations [base], [base + 1],
    ... in turn. *)
Fixpoint index_rows (base : nat) (td : dict string (list nat))
  (ii : dict string loc) : dict string loc :=
  match td with
  | [] => ii
  | row :: td' => index_rows (S base) td' (Dict.setitem (fst row) base ii)
  end.

(** Total number of term occurrences in document [d]. *)
Definition doc_length (td : dict string (list nat)) (d : nat) : nat :=
  list_sum (map (fun row => nth d (snd row) 0%nat) td).

(** The state cell 4 leaves. *)
Definition cell4_result (s : state) : state :=
  mkState (td_matrix s) (NUM_DOCS s)
          (index_rows (length (heap s)) (td_matrix s) [])
          (accum_rows 0%nat Nat.add (fun _ _ f => f) (td_matrix s) [])
          (idx s) (dnorm s)
          (heap s ++ map (fun row => positive_entries 0 (snd row)) (td_matrix s)).

(** The value the entry of document [d] ends with when the rows of [td] are
    accumulated into a table where it was [acc]. *)
Definition accum_value {V : Type} (add : V -> V -> V)
  (w : string -> nat -> nat -> V) (td : dict string (list nat)) (d : nat)
  (acc : V) : V :=
  fold_left (fun acc row =>
               if (0 <? nth d (snd row) 0)%nat
               then add acc (w (fst row) d (nth d (snd row) 0%nat))
               else acc)
            td acc.

(** The square that cell 8 adds to [dnorm[d]] for a term of frequency [f] in
    document [d]. *)
Definition norm_term (s : state) (term : string) (d f : nat) : R :=
  (INR f / INR (Dict.get_default d 0%nat (doclen s)) * idf_val s term) ^ 2.

(** [dnorm] as cell 8 leaves it when run in [s]. *)
Definition cell8_dnorm (s : state) : dict nat R :=
  map (fun e => (fst e, sqrt (snd e)))
      (accum_rows 0 Rplus (norm_term s) (td_matrix s) []).

(** Every document with a positive entry in the matrix has a positive
    length in [doclen]. *)
Definition lengths_cover (s : state) : Prop :=
  forall row d f,
    In row (td_matrix s) -> In (d, f) (positive_entries 0 (snd row)) ->
    exists n, Dict.get d (doclen s) = Some n /\ (0 < n)%nat.

(** The state after cells 4 and 6. *)
Definition cell6_result (s : state) : state :=
  with_idx (cell4_result s) (mkInvIndex (inv_idx (cell4_result s))).

(** The TF-IDF weight, in state [s], of the term of [row] in document [d];
    0 when the term does not occur in [d]. *)
Definition doc_weight (s : state) (d : nat) (row : string * list nat) : R :=
  if (0 <? nth d (snd row) 0)%nat
  then INR (nth d (snd row) 0%nat) / INR (Dict.get_default d 0%nat (doclen s))
       * idf_val s (fst row)
  else 0.

(** ** The reads of posting entries *)








(** * Properties *)

Arguments INR : simpl never.
Arguments pow : simpl never.

(** ** Dictionaries *)

Section DictFacts.
Context {K V : Type} `{Key K}.

Lemma key_eqb_refl (k : K) : key_eqb k k = true.
Proof. destruct (key_eqb_spec k k); congruence. Qed.

Lemma key_eqb_neq (k k' : K) : k <> k' -> key_eqb k k' = false.
Proof. destruct (key_eqb_spec k k'); congruence. Qed.

Lemma get_setitem_same (k : K) (v : V) (d : dict K V) :
  Dict.get k (Dict.setitem k v d) = Some v.
Proof.
  induction d as [|[k' v'] d IH]; simpl.
  - now rewrite key_eqb_refl.
  - destruct (key_eqb_spec k k') as [->|Hne]; simpl.
    + now rewrite key_eqb_refl.
    + now rewrite (key_eqb_neq _ _ Hne).
Qed.

Lemma get_setitem_other (k k' : K) (v : V) (d : dict K V) :
  k <> k' -> Dict.get k (Dict.setitem k' v d) = Dict.get k d.
Proof.
  intros Hne. induction d as [|[k2 v2] d IH]; simpl.
  - now rewrite (key_eqb_neq _ _ Hne).
  - destruct (key_eqb_spec k' k2) as [->|Hne2]; simpl.
    + now rewrite (key_eqb_neq _ _ Hne).
    + now rewrite IH.
Qed.

Lemma setitem_fresh (k : K) (v : V) (d : dict K V) :
  Dict.get k d = None -> Dict.setitem k v d = d ++ [(k, v)].
Proof.
  induction d as [|[k' v'] d IH]; simpl; [reflexivity|].
  destruct (key_eqb k k'); [discriminate|].
  intros Hd. now rewrite IH.
Qed.

Lemma get_app_fresh (k k' : K) (v : V) (d : dict K V) :
  k <> k' -> Dict.get k (d ++ [(k', v)]) = Dict.get k d.
Proof.
  intros Hne. induction d as [|[k2 v2] d IH]; simpl.
  - now rewrite (key_eqb_neq _ _ Hne).
  - now rewrite IH.
Qed.

Lemma get_In (k : K) (v : V) (d : dict K V) :
  Dict.get k d = Some v -> In (k, v) d.
Proof.
  induction d as [|[k' v'] d IH]; simpl; [discriminate|].
  destruct (key_eqb_spec k k') as [->|Hne].
  - intros [= ->]. now left.
  - intros Hd. right. now apply IH.
Qed.

Lemma get_None_keys (k : K) (d : dict K V) :
  Dict.get k d = None <-> ~ In k (Dict.keys d).
Proof.
  induction d as [|[k' v'] d IH]; simpl.
  - tauto.
  - destruct (key_eqb_spec k k') as [->|Hne].
    + split; [discriminate | intros Hn; exfalso; apply Hn; now left].
    + rewrite IH. split.
      * intros Hn [E|Hi]; [congruence | tauto].
      * intros Hn Hi. apply Hn. now right.
Qed.
End DictFacts.

(** ** States that differ only by newly allocated list objects *)

Lemma grow_nil (s : state) : grow s [] = s.
Proof. destruct s. unfold grow, with_heap. simpl. now rewrite app_nil_r. Qed.

Lemma grow_grow (s : state) (k1 k2 : list (list posting)) :
  grow (grow s k1) k2 = grow s (k1 ++ k2).
Proof. unfold grow, with_heap. simpl. now rewrite app_assoc. Qed.

Lemma contents_grow_old (s : state) (k : list (list posting)) (p : loc) :
  (p < length (heap s))%nat -> contents (grow s k) p = contents s p.
Proof. intros Hp. unfold contents, grow. simpl. now apply app_nth1. Qed.

Lemma contents_grow_new (s : state) (k : list (list posting)) (i : nat) :
  contents (grow s k) (length (heap s) + i)%nat = nth i k [].
Proof.
  unfold contents, grow. simpl. rewrite app_nth2 by lia. f_equal. lia.
Qed.

(** Allocating empty lists changes the contents seen at no location, not
    even at one that is not allocated yet. *)
Lemma contents_grow_empty (s : state) (k : list (list posting)) (p : loc) :
  Forall (fun l => l = []) k -> contents (grow s k) p = contents s p.
Proof.
  intros Hk. unfold contents, grow. simpl.
  destruct (Nat.lt_ge_cases p (length (heap s))) as [Hp|Hp].
  - now apply app_nth1.
  - rewrite app_nth2 by exact Hp. rewrite (nth_overflow (heap s)) by exact Hp.
    destruct (nth_in_or_default (p - length (heap s)) k []) as [Hin|E]; [|exact E].
    rewrite Forall_forall in Hk. now apply Hk.
Qed.

Lemma extends_refl (s : state) : extends s s.
Proof. exists []. now rewrite grow_nil. Qed.

Lemma extends_trans (s1 s2 s3 : state) :
  extends s1 s2 -> extends s2 s3 -> extends s1 s3.
Proof. intros [k1 ->] [k2 ->]. exists (k1 ++ k2). apply grow_grow. Qed.

Lemma extends_empty_refl (s : state) : extends_empty s s.
Proof. exists []. split; [constructor | now rewrite grow_nil]. Qed.

Lemma extends_empty_trans (s1 s2 s3 : state) :
  extends_empty s1 s2 -> extends_empty s2 s3 -> extends_empty s1 s3.
Proof.
  intros (k1 & H1 & ->) (k2 & H2 & ->). exists (k1 ++ k2). split.
  - apply Forall_app. now split.
  - apply grow_grow.
Qed.

Lemma extends_empty_extends (s s' : state) : extends_empty s s' -> extends s s'.
Proof. intros (k & _ & ->). now exists k. Qed.

Create HintDb py.
#[local] Hint Resolve extends_refl extends_empty_refl extends_empty_extends : py.

(** ** The arithmetic primitives *)

Lemma pydiv_ok (x y : R) (s : state) : y <> 0 -> pydiv x y s = (Ok (x / y), s).
Proof. intros Hy. unfold pydiv. now destruct (Req_dec_T y 0). Qed.

Lemma pydiv_zero (x y : R) (s : state) :
  y = 0 -> pydiv x y s = (Raise ZeroDivisionError, s).
Proof. intros Hy. unfold pydiv. now destruct (Req_dec_T y 0). Qed.

Lemma pylog_ok (x : R) (s : state) : 0 < x -> pylog x s = (Ok (ln x), s).
Proof. intros Hx. unfold pylog. now destruct (Rlt_dec 0 x). Qed.

Lemma pysqrt_ok (x : R) (s : state) : 0 <= x -> pysqrt x s = (Ok (sqrt x), s).
Proof. intros Hx. unfold pysqrt. now destruct (Rle_dec 0 x). Qed.

(** ** InvIndex.postings and idf *)

Lemma postings_run (self : InvIndex) (term : string) (s : state) :
  postings self term s =
  (Ok (Dict.get_default term (length (heap s)) (idx_contents self)), grow s [[]]).
Proof. reflexivity. Qed.

Lemma len_postings_idx (s : state) (k : list (list posting)) (term : string) :
  Forall (fun l => l = []) k ->
  length (contents (grow (grow s k) [[]])
            (Dict.get_default term (length (heap (grow s k))) (idx_contents (idx s))))
  = df s term.
Proof.
  intros Hk. rewrite grow_grow.
  rewrite contents_grow_empty by (apply Forall_app; split; [exact Hk | repeat constructor]).
  unfold df, Dict.get_default.
  destruct (Dict.get term (idx_contents (idx s))) as [p|]; [reflexivity|].
  unfold contents. rewrite nth_overflow; [reflexivity|].
  unfold grow. simpl. rewrite length_app. lia.
Qed.

Lemma idf_run_zero (term : string) (s : state) :
  df s term = 0%nat -> idf term s = (Ok 0, grow s [[]]).
Proof.
  intros Hdf. unfold idf, bind, gets, len. rewrite postings_run.
  pose proof (len_postings_idx s [] term (Forall_nil _)) as E.
  rewrite grow_nil in E. rewrite E, Hdf. reflexivity.
Qed.

Lemma idf_run_pos (term : string) (s : state) :
  (0 < df s term)%nat -> (0 < NUM_DOCS s)%nat ->
  idf term s = (Ok (ln (INR (NUM_DOCS s) / INR (df s term))), grow s [[]; []]).
Proof.
  intros Hdf HN. unfold idf, bind, gets, len. rewrite postings_run.
  pose proof (len_postings_idx s [] term (Forall_nil _)) as E.
  rewrite grow_nil in E. rewrite E.
  destruct (Nat.ltb_spec 0 (df s term)) as [_|Hc]; [|lia].
  rewrite postings_run.
  change (idx (grow s [[]])) with (idx s).
  rewrite (len_postings_idx s [[]] term) by (repeat constructor).
  change (NUM_DOCS (grow s [[]])) with (NUM_DOCS s).
  rewrite pydiv_ok by (apply not_0_INR; lia).
  rewrite pylog_ok by (apply Rdiv_lt_0_compat; apply lt_0_INR; lia).
  now rewrite grow_grow.
Qed.

Lemma idf_run (term : string) (s : state) :
  (0 < NUM_DOCS s)%nat ->
  exists s', idf term s = (Ok (idf_val s term), s') /\ extends_empty s s'.
Proof.
  intros HN. unfold idf_val. destruct (Nat.ltb_spec 0 (df s term)) as [Hdf|Hdf].
  - exists (grow s [[]; []]). split; [now apply idf_run_pos|].
    exists [[]; []]. split; [repeat constructor | reflexivity].
  - exists (grow s [[]]). split; [apply idf_run_zero; lia|].
    exists [[]]. split; [repeat constructor | reflexivity].
Qed.

Lemma df_extends_empty (s s' : state) (term : string) :
  extends_empty s s' -> df s' term = df s term.
Proof.
  intros (k & Hk & ->). unfold df. change (idx (grow s k)) with (idx s).
  destruct (Dict.get term (idx_contents (idx s))); [|reflexivity].
  now rewrite contents_grow_empty.
Qed.

Lemma idf_val_extends_empty (s s' : state) (term : string) :
  extends_empty s s' -> idf_val s' term = idf_val s term.
Proof.
  intros He. unfold idf_val. rewrite (df_extends_empty s s' term He).
  destruct He as (k & _ & ->). reflexivity.
Qed.

(** ** score_dt, first step: the query weights *)

Lemma weigh_term_run (s0 s : state) (query : list string)
  (acc : dict string R * R) (item : string * nat) :
  (0 < NUM_DOCS s0)%nat -> query <> [] -> extends_empty s0 s ->
  exists s', weigh_term query acc item s
             = (Ok (weights_step s0 (length query) acc item), s')
             /\ extends_empty s0 s'.
Proof.
  intros HN Hq He. destruct acc as [tq qn], item as [term freq].
  unfold weigh_term, bind.
  rewrite pydiv_ok by (apply not_0_INR; destruct query; simpl; congruence).
  assert (HN' : (0 < NUM_DOCS s)%nat) by (destruct He as (k & _ & ->); exact HN).
  destruct (idf_run term s HN') as (s' & -> & He').
  unfold getitem. rewrite get_setitem_same. unfold ret, weights_step. simpl.
  rewrite (idf_val_extends_empty s0 s term He).
  exists s'. split; [reflexivity | now apply extends_empty_trans with s].
Qed.

Lemma weights_loop_run (s0 : state) (query : list string) (qry : dict string nat) :
  (0 < NUM_DOCS s0)%nat -> qry = [] \/ query <> [] ->
  forall (acc : dict string R * R) (s : state), extends_empty s0 s ->
  exists s', foldM (weigh_term query) qry acc s
             = (Ok (fold_left (weights_step s0 (length query)) qry acc), s')
             /\ extends_empty s0 s'.
Proof.
  intros HN. induction qry as [|item qry IH]; intros Hq acc s He.
  - exists s. now split.
  - destruct Hq as [Hq|Hq]; [discriminate|].
    simpl. unfold bind.
    destruct (weigh_term_run s0 s query acc item HN Hq He) as (s1 & -> & He1).
    apply IH; [now right | exact He1].
Qed.

Lemma weights_sum_nonneg (s : state) (n : nat) (qry : dict string nat)
  (acc : dict string R * R) :
  0 <= snd acc -> 0 <= snd (fold_left (weights_step s n) qry acc).
Proof.
  revert acc. induction qry as [|item qry IH]; intros acc Hacc; simpl; [exact Hacc|].
  apply IH. simpl. apply Rplus_le_le_0_compat; [exact Hacc | apply pow2_ge_0].
Qed.

Lemma query_weights_run (query : list string) (qry : dict string nat) (s : state) :
  (0 < NUM_DOCS s)%nat -> qry = [] \/ query <> [] ->
  exists s', query_weights query qry s
             = (Ok (fst (weights_val s query qry), sqrt (snd (weights_val s query qry))), s')
             /\ extends_empty s s'.
Proof.
  intros HN Hq. unfold query_weights, bind, Dict.items.
  destruct (weights_loop_run s query qry HN Hq ([], 0) s (extends_empty_refl s))
    as (s' & -> & He).
  fold (weights_val s query qry).
  destruct (weights_val s query qry) as [tq qn] eqn:E.
  rewrite pysqrt_ok.
  - exists s'. now split.
  - change qn with (snd (tq, qn)). rewrite <- E. unfold weights_val.
    apply weights_sum_nonneg. simpl. lra.
Qed.

Lemma Counter_nil_or (query : list string) : Counter query = [] \/ query <> [].
Proof. destruct query; [now left | right; discriminate]. Qed.

(** Every query term gets a weight. *)
Lemma weights_keys (s : state) (n : nat) (t : string) (qry : dict string nat)
  (acc : dict string R * R) :
  In t (Dict.keys qry) \/ Dict.get t (fst acc) <> None ->
  Dict.get t (fst (fold_left (weights_step s n) qry acc)) <> None.
Proof.
  revert acc. induction qry as [|[t' f] qry IH]; intros acc Hin; simpl.
  - destruct Hin as [[]|Hin]; exact Hin.
  - apply IH. simpl.
    destruct (string_dec t t') as [->|Hne].
    + right. rewrite get_setitem_same. discriminate.
    + destruct Hin as [[E|Hin]|Hin].
      * simpl in E. congruence.
      * now left.
      * right. now rewrite get_setitem_other.
Qed.

(** A term that occurs in no document gets weight 0. *)
Lemma weights_unknown (s : state) (n : nat) (t : string) (qry : dict string nat)
  (acc : dict string R * R) :
  df s t = 0%nat ->
  (In t (Dict.keys qry) /\ (Dict.get t (fst acc) = None \/ Dict.get t (fst acc) = Some 0))
  \/ Dict.get t (fst acc) = Some 0 ->
  Dict.get t (fst (fold_left (weights_step s n) qry acc)) = Some 0.
Proof.
  intros Hdf. revert acc. induction qry as [|[t' f] qry IH]; intros acc Hin; simpl.
  - destruct Hin as [[[] _]|Hin]; exact Hin.
  - apply IH. simpl.
    destruct (string_dec t t') as [->|Hne].
    + right. rewrite get_setitem_same. f_equal.
      unfold idf_val. rewrite Hdf. simpl. apply Rmult_0_r.
    + rewrite get_setitem_other by exact Hne.
      destruct Hin as [[[E|Hin] Hacc]|Hin].
      * simpl in E. congruence.
      * left. now split.
      * now right.
Qed.

(** ** score_dt, second step: the private posting lists *)

Lemma fetch_term_run (index : InvIndex) (plists : dict string loc)
  (term : string) (s : state) :
  fetch_term index plists term s =
  (Ok (Dict.setitem term (S (length (heap s))) plists),
   grow s [[]; contents (grow s [[]])
                 (Dict.get_default term (length (heap s)) (idx_contents index))]).
Proof.
  unfold fetch_term, bind. rewrite postings_run.
  unfold list_copy, bind, gets, alloc, ret. simpl.
  rewrite length_app. simpl. rewrite Nat.add_1_r.
  unfold grow, with_heap. simpl. now rewrite <- app_assoc.
Qed.

Lemma fetch_term_copy (s0 s : state) (index : InvIndex) (term : string) :
  extends s0 s -> index_wf s0 index ->
  contents (grow s [[]]) (Dict.get_default term (length (heap s)) (idx_contents index))
  = index_postings s0 index term.
Proof.
  intros [k ->] Hwf. unfold index_postings, Dict.get_default.
  destruct (Dict.get term (idx_contents index)) as [p|] eqn:E.
  - specialize (Hwf term p E). rewrite grow_grow. now apply contents_grow_old.
  - pose proof (contents_grow_new (grow s0 k) [[]] 0) as Hn.
    now rewrite Nat.add_0_r in Hn.
Qed.

Lemma fetch_loop_run (s0 : state) (index : InvIndex) (terms : list string) :
  forall (plists : dict string loc) (s : state),
  extends s0 s -> private_copies s0 index plists s ->
  exists plists' s',
    foldM (fetch_term index) terms plists s = (Ok plists', s')
    /\ extends s0 s'
    /\ private_copies s0 index plists' s'
    /\ (forall t, In t terms \/ Dict.get t plists <> None ->
                  Dict.get t plists' <> None).
Proof.
  induction terms as [|term terms IH]; intros plists s He Hp.
  - exists plists, s. split; [reflexivity|]. split; [exact He|]. split; [exact Hp|].
    intros t [[]|Ht]; exact Ht.
  - simpl. unfold bind. rewrite fetch_term_run.
    set (c := contents _ _).
    assert (Hlen : (length (heap s0) <= length (heap s))%nat).
    { destruct He as [k ->]. unfold grow. simpl. rewrite length_app. lia. }
    destruct (IH (Dict.setitem term (S (length (heap s))) plists) (grow s [[]; c]))
      as (plists' & s' & Hrun & He' & Hp' & Hk').
    + apply extends_trans with s; [exact He | now exists [[]; c]].
    + intros t p Hget.
      assert (Hh : length (heap (grow s [[]; c])) = S (S (length (heap s)))).
      { unfold grow. simpl. rewrite length_app. simpl. lia. }
      destruct (string_dec t term) as [->|Hne].
      * rewrite get_setitem_same in Hget. injection Hget as <-.
        split; [lia|]. intros Hwf.
        replace (S (length (heap s))) with (length (heap s) + 1)%nat by lia.
        rewrite contents_grow_new. simpl. subst c.
        now apply fetch_term_copy.
      * rewrite get_setitem_other in Hget by exact Hne.
        destruct (Hp t p Hget) as [Hr Hc]. split; [lia|].
        intros Hwf. rewrite contents_grow_old by lia. now apply Hc.
    + exists plists', s'. split; [exact Hrun|]. split; [exact He'|]. split; [exact Hp'|].
      intros t Ht. apply Hk'.
      destruct (string_dec t term) as [->|Hne].
      * right. rewrite get_setitem_same. discriminate.
      * destruct Ht as [[E|Ht]|Ht]; [congruence | now left |].
        right. now rewrite get_setitem_other.
Qed.

Lemma fetch_plists_run (index : InvIndex) (qry : dict string nat) (s : state) :
  exists plists s',
    fetch_plists index qry s = (Ok plists, s')
    /\ extends s s'
    /\ private_copies s index plists s'
    /\ (forall t, In t (Dict.keys qry) -> Dict.get t plists <> None).
Proof.
  destruct (fetch_loop_run s index (Dict.keys qry) [] s (extends_refl s))
    as (plists & s' & Hrun & He & Hp & Hk).
  - intros t p Hget. discriminate.
  - exists plists, s'. split; [exact Hrun|]. split; [exact He|]. split; [exact Hp|].
    intros t Ht. apply Hk. now left.
Qed.

(** ** score_dt, third step: the sweep over the documents *)

Lemma foldM_ret {A B : Type} (f : B -> A -> B) (l : list A) (acc : B) (s : state) :
  foldM (fun b a => ret (f b a)) l acc s = (Ok (fold_left f l acc), s).
Proof.
  revert acc. induction l as [|x l IH]; intros acc; simpl; [reflexivity|].
  unfold bind, ret at 1. apply IH.
Qed.

Lemma has_weights_true (tfidf_q : dict string R) (terms : list string) :
  (forall t, In t terms -> Dict.get t tfidf_q <> None) ->
  has_weights tfidf_q terms = true.
Proof.
  intros Hk. apply forallb_forall. intros t Ht. specialize (Hk t Ht).
  now destruct (Dict.get t tfidf_q).
Qed.

(** The inner scoring loop adds [w * 0] for every term: the score stays put. *)
Lemma score_loop_run (tfidf_q : dict string R) (terms : list string)
  (score : R) (s : state) :
  foldM (fun score term =>
           let tfidf_d := 0 in
           w <- getitem term tfidf_q ;; ret (score + w * tfidf_d))
        terms score s
  = (if has_weights tfidf_q terms then Ok score else Raise KeyError, s).
Proof.
  revert score. induction terms as [|t terms IH]; intros score; simpl; [reflexivity|].
  unfold bind at 1, getitem. destruct (Dict.get t tfidf_q) as [w|]; simpl.
  - unfold bind, ret at 1. rewrite IH. now rewrite Rmult_0_r, Rplus_0_r.
  - reflexivity.
Qed.

Lemma score_doc_run (qry : dict string nat) (tfidf_q : dict string R) (qnorm : R)
  (scores : dict nat R) (doc_id : nat) (s : state) :
  score_doc qry tfidf_q qnorm scores doc_id s =
  if has_weights tfidf_q (Dict.keys qry) then
    match Dict.get doc_id (dnorm s) with
    | None => (Raise KeyError, s)
    | Some d =>
        if Req_dec_T (qnorm * d) 0 then (Raise ZeroDivisionError, s)
        else (Ok (Dict.setitem doc_id 0 scores), s)
    end
  else (Raise KeyError, s).
Proof.
  unfold score_doc. unfold bind at 1. rewrite foldM_ret.
  unfold bind at 1. rewrite score_loop_run.
  destruct (has_weights tfidf_q (Dict.keys qry)); [|reflexivity].
  unfold bind, gets, getitem.
  destruct (Dict.get doc_id (dnorm s)) as [d|]; [|reflexivity].
  unfold ret at 1, pydiv.
  destruct (Req_dec_T (qnorm * d) 0) as [E|E]; [reflexivity|].
  unfold ret. unfold Rdiv. now rewrite Rmult_0_l.
Qed.

Lemma get_zero_scores_fresh (n k : nat) :
  (n <= k)%nat -> Dict.get k (zero_scores n) = None.
Proof.
  intros Hk. apply get_None_keys. unfold Dict.keys, zero_scores.
  rewrite map_map. simpl. rewrite map_id. rewrite in_seq. lia.
Qed.

Lemma zero_after_seq (n a : nat) :
  zero_after (seq a n) (zero_scores a) = zero_scores (a + n).
Proof.
  revert a. induction n as [|n IH]; intros a; simpl.
  - now rewrite Nat.add_0_r.
  - rewrite setitem_fresh by (apply get_zero_scores_fresh; lia).
    replace (zero_scores a ++ [(a, 0)]) with (zero_scores (S a)).
    + rewrite IH. f_equal. lia.
    + unfold zero_scores. rewrite seq_S. now rewrite map_app.
Qed.

Lemma zero_after_values (docs : list nat) (scores : dict nat R) :
  (forall d v, In (d, v) scores -> v = 0) ->
  forall d v, In (d, v) (zero_after docs scores) -> v = 0.
Proof.
  revert scores. induction docs as [|d0 docs IH]; intros scores Hz; simpl; [exact Hz|].
  apply IH. clear IH. induction scores as [|[k w] scores IHs]; simpl.
  - intros d v [[= _ <-]|[]]. reflexivity.
  - destruct (d0 =? k)%nat; simpl.
    + intros d v [[= _ <-]|Hin]; [reflexivity|]. apply (Hz d v). now right.
    + intros d v [E|Hin]; [apply (Hz d v); now left|].
      apply (IHs (fun d v H => Hz d v (or_intror H)) d v Hin).
Qed.

Lemma sweep_loop_any (qry : dict string nat) (tfidf_q : dict string R) (qnorm : R)
  (docs : list nat) (s : state) :
  forall (scores m : dict nat R) (s' : state),
  foldM (score_doc qry tfidf_q qnorm) docs scores s = (Ok m, s') ->
  m = zero_after docs scores /\ s' = s.
Proof.
  induction docs as [|d docs IH]; intros scores m s' Hrun; simpl in Hrun.
  - unfold ret in Hrun. injection Hrun as <- <-. now split.
  - unfold bind in Hrun. rewrite score_doc_run in Hrun.
    destruct (has_weights tfidf_q (Dict.keys qry)); [|discriminate].
    destruct (Dict.get d (dnorm s)) as [v|]; [|discriminate].
    destruct (Req_dec_T (qnorm * v) 0); [discriminate|].
    now apply IH.
Qed.

Lemma sweep_loop_ok (qry : dict string nat) (tfidf_q : dict string R) (qnorm : R)
  (docs : list nat) (s : state) :
  has_weights tfidf_q (Dict.keys qry) = true ->
  (forall d, In d docs -> scorable s qnorm d) ->
  forall scores : dict nat R,
  foldM (score_doc qry tfidf_q qnorm) docs scores s = (Ok (zero_after docs scores), s).
Proof.
  intros Hw. induction docs as [|d docs IH]; intros Hs scores; simpl; [reflexivity|].
  unfold bind. rewrite score_doc_run, Hw.
  destruct (Hs d (or_introl eq_refl)) as (v & -> & Hv).
  destruct (Req_dec_T (qnorm * v) 0); [contradiction|].
  apply IH. intros d' Hd'. apply Hs. now right.
Qed.

Lemma sweep_loop_raise (qry : dict string nat) (tfidf_q : dict string R) (qnorm : R)
  (pre post : list nat) (d : nat) (e : exn) (s : state) :
  has_weights tfidf_q (Dict.keys qry) = true ->
  (forall d', In d' pre -> scorable s qnorm d') ->
  doc_failure s qnorm d e ->
  forall scores : dict nat R,
  foldM (score_doc qry tfidf_q qnorm) (pre ++ d :: post) scores s = (Raise e, s).
Proof.
  intros Hw. induction pre as [|d0 pre IH]; intros Hs Hf scores; simpl.
  - unfold bind. rewrite score_doc_run, Hw. unfold doc_failure in Hf.
    destruct (Dict.get d (dnorm s)) as [v|].
    + destruct Hf as [Hv ->]. now destruct (Req_dec_T (qnorm * v) 0).
    + now subst e.
  - unfold bind. rewrite score_doc_run, Hw.
    destruct (Hs d0 (or_introl eq_refl)) as (v & -> & Hv).
    destruct (Req_dec_T (qnorm * v) 0); [contradiction|].
    apply IH; [|exact Hf]. intros d' Hd'. apply Hs. now right.
Qed.

Lemma sweep_run_ok (qry : dict string nat) (tfidf_q : dict string R) (qnorm : R)
  (s : state) :
  has_weights tfidf_q (Dict.keys qry) = true ->
  (forall d, (d < NUM_DOCS s)%nat -> scorable s qnorm d) ->
  sweep qry tfidf_q qnorm s = (Ok (zero_scores (NUM_DOCS s)), s).
Proof.
  intros Hw Hs. unfold sweep, bind, gets. rewrite sweep_loop_ok.
  - change (@nil (nat * R)) with (zero_scores 0). now rewrite zero_after_seq.
  - exact Hw.
  - intros d Hd. apply in_seq in Hd. apply (Hs d). lia.
Qed.

(** ** What a call may do to the state *)

Section Frames.
Context {A : Type}.

Lemma frames_ret (a : A) : frames (ret a).
Proof. intros s r s' [= _ <-]. apply extends_refl. Qed.

Lemma frames_raise (e : exn) : frames (@raise A e).
Proof. intros s r s' [= _ <-]. apply extends_refl. Qed.

Lemma frames_gets (f : state -> A) : frames (gets f).
Proof. intros s r s' [= _ <-]. apply extends_refl. Qed.
End Frames.

Lemma frames_bind {A B : Type} (m : M A) (k : A -> M B) :
  frames m -> (forall a, frames (k a)) -> frames (bind m k).
Proof.
  intros Hm Hk s r s' Hrun. unfold bind in Hrun.
  destruct (m s) as [[a|e] s1] eqn:E.
  - apply extends_trans with s1; [apply (Hm _ _ _ E) | apply (Hk a _ _ _ Hrun)].
  - injection Hrun as _ <-. apply (Hm _ _ _ E).
Qed.

Lemma frames_foldM {A B : Type} (body : B -> A -> M B) (l : list A) :
  (forall acc x, frames (body acc x)) -> forall acc, frames (foldM body l acc).
Proof.
  intros Hb. induction l as [|x l IH]; intros acc; simpl.
  - apply frames_ret.
  - apply frames_bind; [apply Hb | exact IH].
Qed.

Lemma frames_getitem {K V : Type} `{Key K} (k : K) (d : dict K V) :
  frames (getitem k d).
Proof.
  unfold getitem. destruct (Dict.get k d); [apply frames_ret | apply frames_raise].
Qed.

Lemma frames_pydiv (x y : R) : frames (pydiv x y).
Proof.
  unfold pydiv. destruct (Req_dec_T y 0); [apply frames_raise | apply frames_ret].
Qed.

Lemma frames_pylog (x : R) : frames (pylog x).
Proof.
  unfold pylog. destruct (Rlt_dec 0 x); [apply frames_ret | apply frames_raise].
Qed.

Lemma frames_pysqrt (x : R) : frames (pysqrt x).
Proof.
  unfold pysqrt. destruct (Rle_dec 0 x); [apply frames_ret | apply frames_raise].
Qed.

Lemma frames_alloc (l : list posting) : frames (alloc l).
Proof. intros s r s' [= _ <-]. now exists [l]. Qed.

Lemma frames_len (p : loc) : frames (len p).
Proof. intros s r s' [= _ <-]. apply extends_refl. Qed.

Ltac frame_step :=
  first [ apply frames_ret | apply frames_raise | apply frames_gets
        | apply frames_getitem | apply frames_pydiv | apply frames_pylog
        | apply frames_pysqrt | apply frames_alloc | apply frames_len
        | apply frames_bind; [|intros ?] ].

Lemma frames_postings (self : InvIndex) (term : string) :
  frames (postings self term).
Proof. unfold postings. repeat frame_step. Qed.

Lemma frames_list_copy (p : loc) : frames (list_copy p).
Proof. unfold list_copy. repeat frame_step. Qed.

Lemma frames_idf (term : string) : frames (idf term).
Proof.
  unfold idf.
  apply frames_bind; [apply frames_gets | intros i].
  apply frames_bind; [apply frames_postings | intros p].
  apply frames_bind; [apply frames_len | intros n].
  destruct (0 <? n)%nat; [|apply frames_ret].
  repeat first [apply frames_postings | frame_step].
Qed.

Lemma frames_weigh_term (query : list string) (acc : dict string R * R)
  (item : string * nat) : frames (weigh_term query acc item).
Proof.
  destruct acc, item. unfold weigh_term.
  repeat first [apply frames_idf | frame_step].
Qed.

Lemma frames_query_weights (query : list string) (qry : dict string nat) :
  frames (query_weights query qry).
Proof.
  unfold query_weights. apply frames_bind.
  - apply frames_foldM. intros. apply frames_weigh_term.
  - intros [tq qn]. repeat frame_step.
Qed.

Lemma frames_fetch_plists (index : InvIndex) (qry : dict string nat) :
  frames (fetch_plists index qry).
Proof.
  unfold fetch_plists. apply frames_foldM. intros plists term. unfold fetch_term.
  repeat first [apply frames_postings | apply frames_list_copy | frame_step].
Qed.

Lemma frames_score_doc (qry : dict string nat) (tfidf_q : dict string R)
  (qnorm : R) (scores : dict nat R) (doc_id : nat) :
  frames (score_doc qry tfidf_q qnorm scores doc_id).
Proof.
  unfold score_doc.
  repeat first [apply frames_foldM; intros ? ? | frame_step].
Qed.

Lemma frames_sweep (qry : dict string nat) (tfidf_q : dict string R) (qnorm : R) :
  frames (sweep qry tfidf_q qnorm).
Proof.
  unfold sweep. frame_step; [frame_step|].
  apply frames_foldM. intros. apply frames_score_doc.
Qed.

Lemma frames_score_dt_locals (query : list string) (index : InvIndex) :
  frames (score_dt_locals query index).
Proof.
  unfold score_dt_locals. apply frames_bind; [apply frames_query_weights|].
  intros [tq qn]. apply frames_bind; [apply frames_fetch_plists|]. intros plists.
  apply frames_bind; [apply frames_sweep|]. intros sc. apply frames_ret.
Qed.

Lemma frames_score_dt (query : list string) (index : InvIndex) :
  frames (score_dt query index).
Proof.
  unfold score_dt. apply frames_bind; [apply frames_score_dt_locals|].
  intros l. apply frames_ret.
Qed.

(** ** score_dt as a whole *)

Lemma weigh_term_keys (query : list string) (acc acc' : dict string R * R)
  (term : string) (freq : nat) (s s' : state) :
  weigh_term query acc (term, freq) s = (Ok acc', s') ->
  exists w, fst acc' = Dict.setitem term w (fst acc).
Proof.
  destruct acc as [tq qn]. unfold weigh_term, bind.
  destruct (pydiv _ _ s) as [[tf|e] s1]; [|discriminate].
  destruct (idf term s1) as [[w|e] s2]; [|discriminate].
  unfold getitem. rewrite get_setitem_same. unfold ret.
  intros [= <- _]. now exists (tf * w).
Qed.

Lemma weights_loop_keys (query : list string) (qry : dict string nat) :
  forall (acc acc' : dict string R * R) (s s' : state),
  foldM (weigh_term query) qry acc s = (Ok acc', s') ->
  forall t, In t (Dict.keys qry) \/ Dict.get t (fst acc) <> None ->
            Dict.get t (fst acc') <> None.
Proof.
  induction qry as [|[term freq] qry IH]; intros acc acc' s s' Hrun t Ht.
  - injection Hrun as <- _. destruct Ht as [[]|Ht]; exact Ht.
  - simpl in Hrun. unfold bind in Hrun.
    destruct (weigh_term query acc (term, freq) s) as [[acc1|e] s1] eqn:E;
      [|discriminate].
    destruct (weigh_term_keys _ _ _ _ _ _ _ E) as [w Hw].
    apply (IH _ _ _ _ Hrun). rewrite Hw.
    destruct (string_dec t term) as [->|Hne].
    + right. rewrite get_setitem_same. discriminate.
    + destruct Ht as [[E'|Ht]|Ht]; [simpl in E'; congruence | now left |].
      right. now rewrite get_setitem_other.
Qed.

Lemma query_weights_keys (query : list string) (qry : dict string nat)
  (tq : dict string R) (qn : R) (s s1 : state) :
  query_weights query qry s = (Ok (tq, qn), s1) ->
  has_weights tq (Dict.keys qry) = true.
Proof.
  unfold query_weights, bind. intros Hrun.
  destruct (foldM (weigh_term query) (Dict.items qry) ([], 0) s)
    as [[[tq' qn']|e] s'] eqn:E; [|discriminate].
  destruct (pysqrt qn' s') as [[r|e] s2]; [|discriminate].
  injection Hrun as <- _ _.
  apply has_weights_true. intros t Ht.
  apply (weights_loop_keys _ _ _ _ _ _ E t). now left.
Qed.

Lemma private_copies_weaken (s s1 s2 : state) (index : InvIndex)
  (plists : dict string loc) :
  extends s s1 -> private_copies s1 index plists s2 ->
  private_copies s index plists s2.
Proof.
  intros [k ->] Hp t p Hget. destruct (Hp t p Hget) as [Hr Hc].
  assert (Hlen : length (heap (grow s k)) = (length (heap s) + length k)%nat).
  { unfold grow. simpl. apply length_app. }
  split; [lia|]. intros Hwf. rewrite Hc.
  - unfold index_postings.
    destruct (Dict.get t (idx_contents index)) as [q|] eqn:E; [|reflexivity].
    apply contents_grow_old. now apply (Hwf t q).
  - intros t' q Hq. specialize (Hwf t' q Hq). lia.
Qed.

(** Once the query weights are there, the call is the sweep run in a state
    that only gained the private copies. *)
Lemma score_dt_locals_run (query : list string) (index : InvIndex)
  (tq : dict string R) (qn : R) (s s1 : state) :
  query_weights query (Counter query) s = (Ok (tq, qn), s1) ->
  exists plists k,
    private_copies s index plists (grow s k)
    /\ (forall t, In t (Dict.keys (Counter query)) -> Dict.get t plists <> None)
    /\ has_weights tq (Dict.keys (Counter query)) = true
    /\ score_dt_locals query index s =
       match foldM (score_doc (Counter query) tq qn) (seq 0 (NUM_DOCS s)) []
                   (grow s k) with
       | (Ok sc, s3) => (Ok (mkLocals (Counter query) tq qn plists sc), s3)
       | (Raise e, s3) => (Raise e, s3)
       end.
Proof.
  intros Hq.
  pose proof (frames_query_weights _ _ _ _ _ Hq) as He1.
  destruct (fetch_plists_run index (Counter query) s1)
    as (plists & s2 & Hf & He2 & Hp & Hk).
  destruct (extends_trans _ _ _ He1 He2) as [k ->].
  exists plists, k. split; [now apply private_copies_weaken with s1|].
  split; [exact Hk|]. split; [now apply query_weights_keys in Hq|].
  unfold score_dt_locals, bind. rewrite Hq, Hf. unfold sweep, bind, gets.
  reflexivity.
Qed.

Lemma score_dt_of_locals (query : list string) (index : InvIndex) (s : state) :
  score_dt query index s =
  match score_dt_locals query index s with
  | (Ok l, s') => (Ok (scores l), s')
  | (Raise e, s') => (Raise e, s')
  end.
Proof. reflexivity. Qed.

Lemma score_dt_locals_ok (query : list string) (index : InvIndex)
  (tq : dict string R) (qn : R) (s s1 : state) :
  query_weights query (Counter query) s = (Ok (tq, qn), s1) ->
  (forall d, (d < NUM_DOCS s)%nat -> scorable s qn d) ->
  exists plists k,
    private_copies s index plists (grow s k)
    /\ (forall t, In t (Dict.keys (Counter query)) -> Dict.get t plists <> None)
    /\ score_dt_locals query index s
       = (Ok (mkLocals (Counter query) tq qn plists (zero_scores (NUM_DOCS s))),
          grow s k).
Proof.
  intros Hq Hs.
  destruct (score_dt_locals_run query index tq qn s s1 Hq)
    as (plists & k & Hp & Hk & Hw & ->).
  exists plists, k. split; [exact Hp|]. split; [exact Hk|].
  rewrite sweep_loop_ok.
  - change (@nil (nat * R)) with (zero_scores 0).
    now rewrite zero_after_seq.
  - exact Hw.
  - intros d Hd. apply in_seq in Hd. apply (Hs d). lia.
Qed.

Lemma score_dt_locals_raise (query : list string) (index : InvIndex)
  (tq : dict string R) (qn : R) (s s1 : state) (d : nat) (e : exn) :
  query_weights query (Counter query) s = (Ok (tq, qn), s1) ->
  (d < NUM_DOCS s)%nat ->
  (forall d', (d' < d)%nat -> scorable s qn d') ->
  doc_failure s qn d e ->
  exists k, score_dt_locals query index s = (Raise e, grow s k).
Proof.
  intros Hq Hd Hs Hf.
  destruct (score_dt_locals_run query index tq qn s s1 Hq)
    as (plists & k & Hp & Hk & Hw & ->).
  exists k.
  replace (seq 0 (NUM_DOCS s)) with (seq 0 d ++ d :: seq (S d) (NUM_DOCS s - S d)).
  - rewrite (sweep_loop_raise _ _ _ _ _ d e); [reflexivity | exact Hw | | exact Hf].
    intros d' Hd'. apply in_seq in Hd'. apply (Hs d'). lia.
  - change (d :: seq (S d) (NUM_DOCS s - S d)) with (seq d (S (NUM_DOCS s - S d))).
    rewrite <- seq_app. f_equal. lia.
Qed.

(** Whenever the call returns, the scores are [{0: 0, ..., N-1: 0}]. *)
Lemma score_dt_locals_any (query : list string) (index : InvIndex)
  (l : locals) (s s' : state) :
  score_dt_locals query index s = (Ok l, s') ->
  scores l = zero_scores (NUM_DOCS s).
Proof.
  intros Hrun. pose proof Hrun as Hrun'. unfold score_dt_locals, bind in Hrun'.
  destruct (query_weights query (Counter query) s) as [[[tq qn]|e] s1] eqn:Hq;
    [|discriminate].
  clear Hrun'.
  destruct (score_dt_locals_run query index tq qn s s1 Hq)
    as (plists & k & Hp & Hk & Hw & E).
  rewrite E in Hrun.
  destruct (foldM _ _ _ _) as [[sc|e] s3] eqn:Hsw; [|discriminate].
  injection Hrun as <- _. simpl.
  destruct (sweep_loop_any _ _ _ _ _ _ _ _ Hsw) as [-> _].
  change (@nil (nat * R)) with (zero_scores 0).
  now rewrite zero_after_seq.
Qed.

(** ** The worked example: building the tables *)

Lemma example_cell4 :
  cell4 (init example_td_matrix 5)
  = (Ok tt, with_idx example_indexed (mkInvIndex [])).
Proof. reflexivity. Qed.

Lemma example_cell6 :
  cell6 (with_idx example_indexed (mkInvIndex [])) = (Ok tt, example_indexed).
Proof. reflexivity. Qed.

Lemma dnorm_add_skip (term : string) (doc_id : nat) (s : state) :
  dnorm_add term (doc_id, 0%nat) s = (Ok tt, s).
Proof. reflexivity. Qed.

Lemma dnorm_add_run (term : string) (doc_id freq n : nat) (s : state) :
  (0 < freq)%nat -> Dict.get doc_id (doclen s) = Some n -> (0 < n)%nat ->
  (0 < df s term)%nat -> (0 < NUM_DOCS s)%nat ->
  dnorm_add term (doc_id, freq) s =
  (Ok tt,
   with_dnorm (grow s [[]; []])
     (Dict.setitem doc_id
        (Dict.get_default doc_id 0 (dnorm s)
         + (INR freq / INR n * ln (INR (NUM_DOCS s) / INR (df s term))) ^ 2)
        (dnorm s))).
Proof.
  intros Hf Hd Hn Hdf HN. unfold dnorm_add.
  destruct (Nat.ltb_spec 0 freq) as [_|Hc]; [|lia].
  unfold bind, gets, getitem. rewrite Hd. unfold ret at 1.
  rewrite pydiv_ok by (apply not_0_INR; lia).
  rewrite idf_run_pos by assumption.
  reflexivity.
Qed.

Lemma dnorm_sqrt_run (doc_id : nat) (val : R) (s : state) :
  0 <= val ->
  dnorm_sqrt (doc_id, val) s
  = (Ok tt, with_dnorm s (Dict.setitem doc_id (sqrt val) (dnorm s))).
Proof. intros Hv. unfold dnorm_sqrt, bind. now rewrite pysqrt_ok. Qed.

Arguments dnorm_add : simpl never.
Arguments dnorm_sqrt : simpl never.

(** [0 <= 0 + x1 ^ 2 + ... + xn ^ 2] *)
Ltac sum_of_squares :=
  repeat (apply Rplus_le_le_0_compat; [|apply pow2_ge_0]); apply Rle_refl.

(** Bring the state back to a literal record after a step. *)
Ltac norm_state :=
  cbv [with_dnorm with_heap with_idx with_doclen with_inv_idx grow
       td_matrix NUM_DOCS inv_idx doclen idx dnorm heap app];
  cbn.

Lemma example_cell8 : cell8 example_indexed = (Ok tt, example_state).
Proof.
  unfold cell8, bind, modify, gets, example_indexed, example_td_matrix.
  cbn [for_ Dict.items td_matrix with_dnorm enumerate length seq combine].
  unfold bind.
  repeat ((rewrite dnorm_add_skip
           || erewrite dnorm_add_run by (cbn; first [reflexivity | lia]));
          norm_state).
  unfold bind.
  repeat (rewrite dnorm_sqrt_run by sum_of_squares; norm_state).
  reflexivity.
Qed.

(** Running cells 4, 6 and 8 on the literal matrix gives [example_state]. *)
Lemma example_notebook :
  notebook (init example_td_matrix 5) = (Ok tt, example_state).
Proof.
  unfold notebook, bind. rewrite example_cell4, example_cell6.
  apply example_cell8.
Qed.

(** ** The worked example: numbers *)

Lemma ln_ratio_pos (n m : nat) :
  (0 < m)%nat -> (m < n)%nat -> 0 < ln (INR n / INR m).
Proof.
  intros Hm Hn.
  assert (Hm' : 0 < INR m) by now apply lt_0_INR.
  assert (Hn' : INR m < INR n) by now apply lt_INR.
  rewrite <- ln_1. apply ln_increasing; [lra|].
  apply Rmult_lt_reg_r with (INR m); [exact Hm'|].
  unfold Rdiv. rewrite Rmult_assoc, Rinv_l by lra. lra.
Qed.

Lemma example_tfidf_pos (freq dl dfreq : nat) :
  (0 < freq)%nat -> (0 < dl)%nat -> (0 < dfreq < 5)%nat ->
  0 < example_tfidf freq dl dfreq.
Proof.
  intros Hf Hd Hdf. unfold example_tfidf. apply Rmult_lt_0_compat.
  - apply Rdiv_lt_0_compat; apply lt_0_INR; assumption.
  - apply ln_ratio_pos; lia.
Qed.

Lemma sqrt_sum_pos (a x : R) : 0 <= a -> 0 < x -> 0 < sqrt (a + x ^ 2).
Proof.
  intros Ha Hx. apply sqrt_lt_R0.
  apply Rplus_le_lt_0_compat; [exact Ha | now apply pow_lt].
Qed.

Lemma example_dnorm_pos (d : nat) :
  (d < 5)%nat -> exists v, Dict.get d example_dnorm = Some v /\ 0 < v.
Proof.
  intros Hd.
  destruct d as [|[|[|[|[|d]]]]]; [| | | | |lia];
    (eexists; split; [reflexivity|]);
    apply sqrt_sum_pos; try sum_of_squares; apply example_tfidf_pos; lia.
Qed.

(** ** The worked example: the call of cell 10 *)

Lemma weigh_term_run_pos (query : list string) (tq : dict string R) (qn : R)
  (term : string) (freq : nat) (s : state) :
  query <> [] -> (0 < df s term)%nat -> (0 < NUM_DOCS s)%nat ->
  weigh_term query (tq, qn) (term, freq) s =
  (Ok (Dict.setitem term
         (INR freq / INR (length query) * ln (INR (NUM_DOCS s) / INR (df s term))) tq,
       qn + (INR freq / INR (length query)
             * ln (INR (NUM_DOCS s) / INR (df s term))) ^ 2),
   grow s [[]; []]).
Proof.
  intros Hq Hdf HN. unfold weigh_term, bind.
  rewrite pydiv_ok by (apply not_0_INR; destruct query; simpl; congruence).
  rewrite idf_run_pos by assumption.
  unfold getitem. now rewrite get_setitem_same.
Qed.

Arguments weigh_term : simpl never.
Arguments fetch_term : simpl never.
Arguments sweep : simpl never.

Lemma example_query_weights :
  query_weights example_query (Counter example_query) example_state
  = (Ok (example_tfidf_q, example_qnorm), grow example_state (repeat [] 6)).
Proof.
  unfold query_weights, bind. cbn [Counter example_query fold_left Dict.items].
  cbn. unfold bind.
  repeat (rewrite weigh_term_run_pos by (cbn; first [discriminate | lia]); cbn).
  rewrite pysqrt_ok by sum_of_squares.
  reflexivity.
Qed.

Lemma example_weight_pos (dfreq : nat) :
  (0 < dfreq < 5)%nat -> 0 < example_weight dfreq.
Proof.
  intros Hdf. unfold example_weight. apply Rmult_lt_0_compat.
  - apply Rdiv_lt_0_compat; apply lt_0_INR; lia.
  - apply ln_ratio_pos; lia.
Qed.

Lemma example_qnorm_pos : 0 < example_qnorm.
Proof.
  unfold example_qnorm. apply sqrt_sum_pos; [sum_of_squares|].
  apply example_weight_pos. lia.
Qed.

Lemma example_scorable (d : nat) :
  (d < 5)%nat -> scorable example_state example_qnorm d.
Proof.
  intros Hd. destruct (example_dnorm_pos d Hd) as (v & Hv & Hpos).
  exists v. split; [exact Hv|].
  pose proof example_qnorm_pos as Hq.
  apply Rgt_not_eq. now apply Rmult_lt_0_compat.
Qed.

Lemma example_score_dt_locals :
  score_dt_locals example_query (idx example_state) example_state
  = (Ok example_locals, example_final).
Proof.
  unfold score_dt_locals, bind. rewrite example_query_weights.
  unfold fetch_plists.
  cbn [Counter example_query fold_left Dict.keys map fst foldM].
  cbn. unfold bind.
  repeat (rewrite fetch_term_run; cbn).
  rewrite sweep_run_ok.
  - reflexivity.
  - reflexivity.
  - intros d Hd. apply (example_scorable d Hd).
Qed.

Lemma example_index_wf : index_wf example_state (idx example_state).
Proof.
  intros t p Hget. apply get_In in Hget. simpl in Hget.
  repeat (destruct Hget as [Hget|Hget]; [injection Hget as _ <-; simpl; lia|]).
  destruct Hget.
Qed.

(** The empty query on the worked example: [qnorm] is [sqrt 0] and the
    division for document 0 fails. *)
Lemma example_empty_query_weights :
  query_weights [] (Counter []) example_state = (Ok ([], sqrt 0), example_state).
Proof.
  unfold query_weights, bind. simpl. unfold ret at 1.
  now rewrite pysqrt_ok by apply Rle_refl.
Qed.

Lemma example_empty_query_raises :
  exists k, score_dt_locals [] (idx example_state) example_state
            = (Raise ZeroDivisionError, grow example_state k).
Proof.
  apply (score_dt_locals_raise [] (idx example_state) [] (sqrt 0)
           example_state example_state 0).
  - exact example_empty_query_weights.
  - simpl. lia.
  - intros d' Hd'. lia.
  - unfold doc_failure. simpl. split; [|reflexivity].
    rewrite sqrt_0. apply Rmult_0_l.
Qed.

(** ** A collection with a document that has no terms *)

Lemma sparse_notebook : notebook (init sparse_td_matrix 2) = (Ok tt, sparse_state).
Proof.
  unfold notebook, bind.
  change (cell4 (init sparse_td_matrix 2))
    with (Ok tt, mkState sparse_td_matrix 2 [("a"%string, 0%nat)] [(1%nat, 1%nat)]
                         (mkInvIndex []) [] [[(1%nat, 1%nat)]]).
  cbv iota.
  change (cell6 (mkState sparse_td_matrix 2 [("a"%string, 0%nat)] [(1%nat, 1%nat)]
                         (mkInvIndex []) [] [[(1%nat, 1%nat)]]))
    with (Ok tt, mkState sparse_td_matrix 2 [("a"%string, 0%nat)] [(1%nat, 1%nat)]
                         (mkInvIndex [("a"%string, 0%nat)]) [] [[(1%nat, 1%nat)]]).
  cbv iota.
  unfold cell8, bind, modify, gets, sparse_td_matrix.
  cbn [for_ Dict.items td_matrix with_dnorm enumerate length seq combine].
  unfold bind.
  repeat ((rewrite dnorm_add_skip
           || erewrite dnorm_add_run by (cbn; first [reflexivity | lia]));
          norm_state).
  unfold bind.
  repeat (rewrite dnorm_sqrt_run by sum_of_squares; norm_state).
  reflexivity.
Qed.

Lemma sparse_query_raises :
  exists k, score_dt_locals ["a"%string] (idx sparse_state) sparse_state
            = (Raise KeyError, grow sparse_state k).
Proof.
  destruct (query_weights_run ["a"%string] (Counter ["a"%string]) sparse_state)
    as (s1 & Hq & _); [simpl; lia | right; discriminate |].
  apply (score_dt_locals_raise _ _ _ _ _ _ 0%nat KeyError Hq).
  - simpl. lia.
  - intros d' Hd'. lia.
  - reflexivity.
Qed.

(** ** Counter *)

Lemma Counter_loop_keys (query : list string) :
  forall (c : dict string nat) (t : string),
  In t query \/ Dict.get t c <> None ->
  Dict.get t (fold_left (fun c t => Dict.setitem t (Dict.get_default t 0%nat c + 1)%nat c)
                        query c) <> None.
Proof.
  induction query as [|t0 query IH]; intros c t Ht; simpl.
  - destruct Ht as [[]|Ht]; exact Ht.
  - apply IH. destruct (string_dec t t0) as [->|Hne].
    + right. rewrite get_setitem_same. discriminate.
    + destruct Ht as [[E|Ht]|Ht]; [congruence | now left |].
      right. now rewrite get_setitem_other.
Qed.

Lemma Counter_keys (query : list string) (t : string) :
  In t query -> In t (Dict.keys (Counter query)).
Proof.
  intros Ht. destruct (in_dec string_dec t (Dict.keys (Counter query))) as [Hin|Hn];
    [exact Hin|].
  apply get_None_keys in Hn. exfalso. revert Hn.
  apply Counter_loop_keys. now left.
Qed.

(** * The claims *)

(** C1 (worked example). On the worked example index and the query
    ["beijing", "duck", "recipe"], [score_dt] returns a mapping with 5
    entries, and every one of them is 0: document 4 does not score above
    document 3 and document 0 does not score above 0.  The ordering the
    claim describes needs the term frequencies the two TODO lines leave at
    0. *)
Theorem C1_example_scores_all_zero :
  score_dt example_query (idx example_state) example_state
  = (Ok [ (0%nat, 0); (1%nat, 0); (2%nat, 0); (3%nat, 0); (4%nat, 0) ],
     example_final).
Proof.
  rewrite score_dt_of_locals, example_score_dt_locals. reflexivity.
Qed.

(** C2 (zero query normalizer), as the code has it: when [qnorm] is 0 and
    there is at least one document, [score_dt] returns no scores; it raises
    at document 0, [ZeroDivisionError] if the document has a normalizer and
    [KeyError] if it has none. *)
Theorem C2_zero_qnorm_raises (query : list string) (index : InvIndex)
  (s s1 : state) (tq : dict string R) (qn : R) :
  (0 < NUM_DOCS s)%nat ->
  query_weights query (Counter query) s = (Ok (tq, qn), s1) ->
  qn = 0 ->
  exists s',
    score_dt query index s
    = (Raise (match Dict.get 0%nat (dnorm s) with
              | Some _ => ZeroDivisionError
              | None => KeyError
              end), s').
Proof.
  intros HN Hq Hz.
  destruct (score_dt_locals_raise query index tq qn s s1 0%nat
              (match Dict.get 0%nat (dnorm s) with
               | Some _ => ZeroDivisionError
               | None => KeyError
               end) Hq HN) as [k Hrun].
  - intros d' Hd'. lia.
  - unfold doc_failure. destruct (Dict.get 0%nat (dnorm s)); [|reflexivity].
    split; [|reflexivity]. subst qn. apply Rmult_0_l.
  - exists (grow s k). now rewrite score_dt_of_locals, Hrun.
Qed.

Lemma C2_zero_qnorm_raises_witness :
  exists s', score_dt [] (idx example_state) example_state
             = (Raise ZeroDivisionError, s').
Proof.
  apply (C2_zero_qnorm_raises [] (idx example_state) example_state example_state
           [] (sqrt 0)).
  - simpl. lia.
  - exact example_empty_query_weights.
  - exact sqrt_0.
Defined.

(** C2 as stated fails: the empty query has [qnorm = 0] on the worked
    example, and [score_dt] raises [ZeroDivisionError] instead of returning
    zeros. *)
Lemma C2_empty_query_counterexample :
  (exists tq s1, query_weights [] (Counter []) example_state = (Ok (tq, 0), s1))
  /\ (exists s', score_dt [] (idx example_state) example_state
                 = (Raise ZeroDivisionError, s')).
Proof.
  split.
  - exists [], example_state. rewrite <- sqrt_0 at 1.
    exact example_empty_query_weights.
  - destruct example_empty_query_raises as [k Hrun].
    exists (grow example_state k). now rewrite score_dt_of_locals, Hrun.
Qed.

(** C3 (idf). [idf(term)] returns 0 when the term's posting list is empty,
    and [ln (N / df)] when it has [df > 0] entries, [N = NUM_DOCS] being the
    (positive) collection size; on the worked example [idf("roast")] is 0. *)
Theorem C3_idf_value (term : string) (s : state) :
  (0 < NUM_DOCS s)%nat ->
  (exists s', idf term s
              = (Ok (if (df s term =? 0)%nat then 0
                     else ln (INR (NUM_DOCS s) / INR (df s term))), s'))
  /\ (exists s', idf "roast" example_state = (Ok 0, s')).
Proof.
  intros HN. split.
  - destruct (Nat.eqb_spec (df s term) 0) as [Hz|Hnz].
    + exists (grow s [[]]). now apply idf_run_zero.
    + exists (grow s [[]; []]). apply idf_run_pos; lia.
  - exists (grow example_state [[]]). now apply idf_run_zero.
Qed.

Lemma C3_idf_value_witness :
  exists s', idf "duck" example_state = (Ok (ln (INR 5 / INR 4)), s').
Proof.
  apply (C3_idf_value "duck" example_state). simpl. lia.
Defined.

(** C4 (full coverage), as the code has it: when the product of [qnorm]
    with the normalizer of every document in [0, N) is defined and not zero,
    [score_dt] returns a mapping with exactly [N] entries, one for each
    DocumentID in [0, N), whether or not the document matches a query term. *)
Theorem C4_full_coverage_when_scorable (query : list string) (index : InvIndex)
  (s s1 : state) (tq : dict string R) (qn : R) :
  query_weights query (Counter query) s = (Ok (tq, qn), s1) ->
  (forall d, (d < NUM_DOCS s)%nat -> scorable s qn d) ->
  exists m s',
    score_dt query index s = (Ok m, s')
    /\ Dict.keys m = seq 0 (NUM_DOCS s)
    /\ length m = NUM_DOCS s.
Proof.
  intros Hq Hs.
  destruct (score_dt_locals_ok query index tq qn s s1 Hq Hs)
    as (plists & k & _ & _ & Hrun).
  exists (zero_scores (NUM_DOCS s)), (grow s k).
  split; [now rewrite score_dt_of_locals, Hrun|].
  unfold Dict.keys, zero_scores. split.
  - rewrite map_map. simpl. apply map_id.
  - now rewrite length_map, length_seq.
Qed.

Lemma C4_full_coverage_when_scorable_witness :
  exists m s',
    score_dt example_query (idx example_state) example_state = (Ok m, s')
    /\ Dict.keys m = [0; 1; 2; 3; 4]%nat
    /\ length m = 5%nat.
Proof.
  apply (C4_full_coverage_when_scorable example_query (idx example_state)
           example_state (grow example_state (repeat [] 6))
           example_tfidf_q example_qnorm).
  - exact example_query_weights.
  - exact example_scorable.
Defined.

(** C4 as stated fails: for the empty query on the worked example no mapping
    is returned at all. *)
Lemma C4_empty_query_counterexample :
  ~ exists m s',
      score_dt [] (idx example_state) example_state = (Ok m, s')
      /\ length m = NUM_DOCS example_state.
Proof.
  intros (m & s' & Hrun & _).
  destruct example_empty_query_raises as [k Hr].
  rewrite score_dt_of_locals, Hr in Hrun. discriminate.
Qed.

(** C5 (degenerate document), as the code has it: when the sweep reaches a
    document that has no entry in [dnorm], [score_dt] raises [KeyError], and
    when it reaches one whose normalizer is 0 it raises [ZeroDivisionError];
    no score is returned for any document. *)
Theorem C5_degenerate_document_raises (query : list string) (index : InvIndex)
  (s s1 : state) (tq : dict string R) (qn : R) (d : nat) (e : exn) :
  query_weights query (Counter query) s = (Ok (tq, qn), s1) ->
  (d < NUM_DOCS s)%nat ->
  (forall d', (d' < d)%nat -> scorable s qn d') ->
  degenerate s d e ->
  exists s', score_dt query index s = (Raise e, s').
Proof.
  intros Hq Hd Hs Hdeg.
  destruct (score_dt_locals_raise query index tq qn s s1 d e Hq Hd Hs) as [k Hrun].
  - unfold degenerate in Hdeg. unfold doc_failure.
    destruct (Dict.get d (dnorm s)); [|exact Hdeg].
    destruct Hdeg as [-> ->]. split; [apply Rmult_0_r | reflexivity].
  - exists (grow s k). now rewrite score_dt_of_locals, Hrun.
Qed.

Lemma C5_degenerate_document_raises_witness :
  exists s', score_dt ["a"%string] (idx sparse_state) sparse_state
             = (Raise KeyError, s').
Proof.
  destruct (query_weights_run ["a"%string] (Counter ["a"%string]) sparse_state)
    as (s1 & Hq & _); [simpl; lia | right; discriminate |].
  apply (C5_degenerate_document_raises _ (idx sparse_state) _ _ _ _ 0%nat KeyError Hq).
  - simpl. lia.
  - intros d' Hd'. lia.
  - reflexivity.
Defined.

(** C5 as stated fails: in the collection built from [sparse_td_matrix],
    document 0 has no terms, gets no normalizer, and [score_dt] raises
    [KeyError] instead of giving it the score 0. *)
Lemma C5_empty_document_counterexample :
  notebook (init sparse_td_matrix 2) = (Ok tt, sparse_state)
  /\ Dict.get 0%nat (dnorm sparse_state) = None
  /\ exists s', score_dt ["a"%string] (idx sparse_state) sparse_state
                = (Raise KeyError, s').
Proof.
  split; [exact sparse_notebook|]. split; [reflexivity|].
  destruct sparse_query_raises as [k Hrun].
  exists (grow sparse_state k). now rewrite score_dt_of_locals, Hrun.
Qed.

(** C6 (unknown term). For a term that is not a key of the inverted index,
    [postings] returns an empty list and raises nothing; [idf] of the term
    is 0, and in every query that contains it the term's weight
    [tfidf_q[term]] is 0, so that the summand [tfidf_q[term] * tfidf_d] it
    adds to a document's score is 0 whatever the document. *)
Theorem C6_unknown_term_absorbed (index : InvIndex) (term : string)
  (before after : list string) (s : state) :
  Dict.get term (idx_contents index) = None ->
  Dict.get term (idx_contents (idx s)) = None ->
  (0 < NUM_DOCS s)%nat ->
  (exists p s', postings index term s = (Ok p, s') /\ contents s' p = [])
  /\ (exists s', idf term s = (Ok 0, s'))
  /\ (exists tq qn s',
        query_weights (before ++ term :: after)
                      (Counter (before ++ term :: after)) s = (Ok (tq, qn), s')
        /\ Dict.get term tq = Some 0).
Proof.
  intros Hi Hg HN.
  assert (Hdf : df s term = 0%nat) by (unfold df; now rewrite Hg).
  split; [|split].
  - exists (length (heap s)), (grow s [[]]). split.
    + rewrite postings_run. unfold Dict.get_default. now rewrite Hi.
    + pose proof (contents_grow_new s [[]] 0) as Hn.
      now rewrite Nat.add_0_r in Hn.
  - exists (grow s [[]]). now apply idf_run_zero.
  - set (query := before ++ term :: after).
    destruct (query_weights_run query (Counter query) s HN (Counter_nil_or query))
      as (s' & Hq & _).
    assert (Hw : Dict.get term (fst (weights_val s query (Counter query))) = Some 0).
    { unfold weights_val. apply weights_unknown; [exact Hdf|].
      left. split; [|now left].
      apply Counter_keys. subst query. apply in_elt. }
    eexists _, _, s'. split; [exact Hq | exact Hw].
Qed.

Lemma C6_unknown_term_absorbed_witness :
  (exists p s', postings (idx example_state) "panda" example_state = (Ok p, s')
                /\ contents s' p = [])
  /\ (exists s', idf "panda" example_state = (Ok 0, s'))
  /\ (exists tq qn s',
        query_weights ["duck"; "panda"]%string (Counter ["duck"; "panda"]%string)
                      example_state = (Ok (tq, qn), s')
        /\ Dict.get "panda"%string tq = Some 0).
Proof.
  apply (C6_unknown_term_absorbed (idx example_state) "panda" ["duck"%string] []
           example_state).
  - reflexivity.
  - reflexivity.
  - simpl. lia.
Defined.

(** C7 (idf monotonicity). For two terms of the same index with document
    frequencies [0 < df1 < df2], [idf] of the first is strictly greater than
    [idf] of the second. *)
Theorem C7_idf_antitone (t1 t2 : string) (s : state) :
  (0 < NUM_DOCS s)%nat ->
  (0 < df s t1)%nat -> (df s t1 < df s t2)%nat ->
  exists v1 v2 s1 s2,
    idf t1 s = (Ok v1, s1) /\ idf t2 s = (Ok v2, s2) /\ v2 < v1.
Proof.
  intros HN H1 H12.
  exists (ln (INR (NUM_DOCS s) / INR (df s t1))),
         (ln (INR (NUM_DOCS s) / INR (df s t2))),
         (grow s [[]; []]), (grow s [[]; []]).
  split; [apply idf_run_pos; lia|]. split; [apply idf_run_pos; lia|].
  assert (HN' : 0 < INR (NUM_DOCS s)) by (apply lt_0_INR; exact HN).
  assert (H1' : 0 < INR (df s t1)) by (apply lt_0_INR; exact H1).
  assert (H2' : INR (df s t1) < INR (df s t2)) by (apply lt_INR; exact H12).
  apply ln_increasing.
  - apply Rdiv_lt_0_compat; lra.
  - unfold Rdiv. apply Rmult_lt_compat_l; [exact HN'|].
    apply Rinv_lt_contravar; [|exact H2'].
    apply Rmult_lt_0_compat; lra.
Qed.

Lemma C7_idf_antitone_witness :
  exists v1 v2 s1 s2,
    idf "beijing" example_state = (Ok v1, s1)
    /\ idf "duck" example_state = (Ok v2, s2) /\ v2 < v1.
Proof.
  apply (C7_idf_antitone "beijing" "duck" example_state); cbn; lia.
Defined.

(** C9 (frame). Whatever its outcome, a call of [score_dt] leaves the state
    as it was but for list objects it allocated: [inv_idx], [idx], [doclen],
    [dnorm] and every posting list of the index are unchanged.  The lists in
    [plists] are new objects, none of them a list of the index, and each
    holds a copy of the term's posting list. *)
Theorem C9_score_dt_frame (query : list string) (index : InvIndex) (s : state) :
  index_wf s index ->
  (exists k, snd (score_dt query index s) = grow s k)
  /\ match score_dt_locals query index s with
     | (Ok l, s') => private_copies s index (plists l) s'
     | (Raise _, _) => True
     end.
Proof.
  intros Hwf. split.
  - apply (frames_score_dt query index s (fst (score_dt query index s))).
    apply surjective_pairing.
  - destruct (score_dt_locals query index s) as [[l|e] s'] eqn:Hrun; [|exact I].
    pose proof Hrun as Hrun'. unfold score_dt_locals, bind in Hrun'.
    destruct (query_weights query (Counter query) s) as [[[tq qn]|e] s1] eqn:Hq;
      [|discriminate].
    clear Hrun'.
    destruct (score_dt_locals_run query index tq qn s s1 Hq)
      as (pl & k & Hp & _ & _ & E).
    rewrite E in Hrun.
    destruct (foldM _ _ _ _) as [[sc|e] s3] eqn:Hsw; [|discriminate].
    destruct (sweep_loop_any _ _ _ _ _ _ _ _ Hsw) as [_ ->].
    injection Hrun as <- <-. exact Hp.
Qed.

Lemma C9_score_dt_frame_witness :
  (exists k, snd (score_dt example_query (idx example_state) example_state)
             = grow example_state k)
  /\ match score_dt_locals example_query (idx example_state) example_state with
     | (Ok l, s') => private_copies example_state (idx example_state) (plists l) s'
     | (Raise _, _) => True
     end.
Proof.
  apply (C9_score_dt_frame example_query (idx example_state) example_state).
  exact example_index_wf.
Defined.

(** C10 (all scores zero). Whenever [score_dt] returns, every score in the
    mapping it returns is exactly 0. *)
Theorem C10_returned_scores_zero (query : list string) (index : InvIndex)
  (s s' : state) (m : dict nat R) :
  score_dt query index s = (Ok m, s') ->
  m = zero_scores (NUM_DOCS s) /\ Forall (fun e => snd e = 0) m.
Proof.
  intros Hrun. rewrite score_dt_of_locals in Hrun.
  destruct (score_dt_locals query index s) as [[l|e] s2] eqn:E; [|discriminate].
  injection Hrun as <- _.
  rewrite (score_dt_locals_any _ _ _ _ _ E). split; [reflexivity|].
  unfold zero_scores. apply Forall_map. apply Forall_forall. reflexivity.
Qed.

Lemma C10_returned_scores_zero_witness :
  [ (0%nat, 0); (1%nat, 0); (2%nat, 0); (3%nat, 0); (4%nat, 0) ]
  = zero_scores (NUM_DOCS example_state)
  /\ Forall (fun e : nat * R => snd e = 0)
            [ (0%nat, 0); (1%nat, 0); (2%nat, 0); (3%nat, 0); (4%nat, 0) ].
Proof.
  apply (C10_returned_scores_zero example_query (idx example_state)
           example_state example_final).
  rewrite score_dt_of_locals, example_score_dt_locals. reflexivity.
Defined.

(** * Further properties of the notebook code *)

(** ** idf *)

Lemma idf_cases (term : string) (s : state) :
  exists k, Forall (fun l => l = []) k
            /\ idf term s = (idf_outcome s term, grow s k).
Proof.
  unfold idf_outcome.
  destruct (Nat.eqb_spec (df s term) 0) as [Hz|Hnz].
  - exists [[]]. split; [repeat constructor | now apply idf_run_zero].
  - destruct (Nat.eqb_spec (NUM_DOCS s) 0) as [HN|HN].
    + exists [[]; []]. split; [repeat constructor|].
      unfold idf, bind, gets, len. rewrite postings_run.
      pose proof (len_postings_idx s [] term (Forall_nil _)) as E.
      rewrite grow_nil in E. rewrite E.
      destruct (Nat.ltb_spec 0 (df s term)) as [_|Hc]; [|lia].
      rewrite postings_run.
      change (idx (grow s [[]])) with (idx s).
      rewrite (len_postings_idx s [[]] term) by (repeat constructor).
      change (NUM_DOCS (grow s [[]])) with (NUM_DOCS s).
      rewrite pydiv_ok by (apply not_0_INR; lia).
      rewrite HN. change (INR 0) with 0.
      unfold pylog.
      destruct (Rlt_dec 0 (0 / INR (df s term))) as [Hlt|_].
      * exfalso. unfold Rdiv in Hlt. rewrite Rmult_0_l in Hlt. lra.
      * unfold raise. now rewrite grow_grow.
    + exists [[]; []]. split; [repeat constructor | apply idf_run_pos; lia].
Qed.

Lemma idf_outcome_extends_empty (s s' : state) (term : string) :
  extends_empty s s' -> idf_outcome s' term = idf_outcome s term.
Proof.
  intros He. unfold idf_outcome. rewrite (df_extends_empty s s' term He).
  destruct He as (k & _ & ->). reflexivity.
Qed.

(** X1. For a term with postings in a counted collection, [idf] is positive
    when the term occurs in fewer than [NUM_DOCS] documents, 0 when it
    occurs in exactly [NUM_DOCS] of them, and negative when its posting list
    is longer than the hand-set [NUM_DOCS]. *)
Theorem X1_idf_sign (term : string) (s : state) :
  (0 < NUM_DOCS s)%nat -> (0 < df s term)%nat ->
  exists v s',
    idf term s = (Ok v, s')
    /\ match Nat.compare (df s term) (NUM_DOCS s) with
       | Lt => 0 < v
       | Eq => v = 0
       | Gt => v < 0
       end.
Proof.
  intros HN Hdf.
  exists (ln (INR (NUM_DOCS s) / INR (df s term))), (grow s [[]; []]).
  split; [now apply idf_run_pos|].
  assert (HN' : 0 < INR (NUM_DOCS s)) by now apply lt_0_INR.
  assert (Hdf' : 0 < INR (df s term)) by now apply lt_0_INR.
  destruct (Nat.compare_spec (df s term) (NUM_DOCS s)) as [E|Hlt|Hgt].
  - rewrite E. unfold Rdiv. rewrite Rinv_r by lra. apply ln_1.
  - apply ln_ratio_pos; assumption.
  - rewrite <- ln_1. apply ln_increasing; [now apply Rdiv_lt_0_compat|].
    apply lt_INR in Hgt.
    apply Rmult_lt_reg_r with (INR (df s term)); [exact Hdf'|].
    unfold Rdiv. rewrite Rmult_assoc, Rinv_l by lra. lra.
Qed.

Lemma X1_idf_sign_witness :
  exists v s', idf "duck" example_state = (Ok v, s') /\ 0 < v.
Proof.
  apply (X1_idf_sign "duck" example_state); cbn; lia.
Defined.

(** X2. When [NUM_DOCS] is 0, [idf] of a term that has postings raises
    [ValueError]: the quotient is 0 and [math.log(0)] is a domain error. *)
Theorem X2_idf_uncounted_raises (term : string) (s : state) :
  NUM_DOCS s = 0%nat -> (0 < df s term)%nat ->
  exists s', idf term s = (Raise ValueError, s').
Proof.
  intros HN Hdf. destruct (idf_cases term s) as (k & _ & ->).
  exists (grow s k). unfold idf_outcome.
  destruct (Nat.eqb_spec (df s term) 0) as [Hz|_]; [lia|].
  now rewrite HN.
Qed.

Lemma X2_idf_uncounted_raises_witness :
  exists s', idf "a" uncounted_state = (Raise ValueError, s').
Proof.
  apply (X2_idf_uncounted_raises "a" uncounted_state); [reflexivity | cbn; lia].
Defined.

(** X3. [idf] can be asked again: a second call, made in the state the
    first one left, has the same outcome (the same value or the same
    exception). *)
Theorem X3_idf_repeatable (term : string) (s : state) :
  fst (idf term (snd (idf term s))) = fst (idf term s).
Proof.
  destruct (idf_cases term s) as (k & Hk & ->). simpl.
  destruct (idf_cases term (grow s k)) as (k' & _ & ->). simpl.
  apply idf_outcome_extends_empty. now exists k.
Qed.

(** ** Counter *)

Section DictKeys.
Context {K V : Type} `{Key K}.

Lemma keys_setitem (k : K) (v : V) (d : dict K V) :
  Dict.keys (Dict.setitem k v d)
  = match Dict.get k d with
    | Some _ => Dict.keys d
    | None => Dict.keys d ++ [k]
    end.
Proof.
  induction d as [|[k' v'] d IH]; simpl; [reflexivity|].
  destruct (key_eqb k k'); simpl; [reflexivity|].
  rewrite IH. now destruct (Dict.get k d).
Qed.

Lemma In_get (k : K) (v : V) (d : dict K V) :
  NoDup (Dict.keys d) -> In (k, v) d -> Dict.get k d = Some v.
Proof.
  induction d as [|[k' v'] d IH]; simpl; intros Hnd Hin; [destruct Hin|].
  inversion Hnd as [|? ? Hnot Hnd']; subst.
  destruct Hin as [[= -> ->]|Hin].
  - now rewrite key_eqb_refl.
  - destruct (key_eqb_spec k k') as [->|Hne]; [|now apply IH].
    exfalso. apply Hnot. apply (in_map fst) in Hin. exact Hin.
Qed.
End DictKeys.

Lemma first_occurrences_spec (l : list string) :
  forall seen,
    NoDup (first_occurrences seen l)
    /\ forall x, In x (first_occurrences seen l) <-> In x l /\ ~ In x seen.
Proof.
  induction l as [|a l IH]; intros seen; simpl.
  - split; [constructor | intros x; tauto].
  - destruct (in_dec string_dec a seen) as [Hin|Hnin].
    + destruct (IH seen) as [Hnd Hx]. split; [exact Hnd|].
      intros x. rewrite Hx. split; [tauto|].
      intros [[->|Hl] Hs]; tauto.
    + destruct (IH (seen ++ [a])) as [Hnd Hx]. split.
      * constructor; [|exact Hnd]. rewrite Hx, in_app_iff. simpl. tauto.
      * intros x. simpl. rewrite Hx, in_app_iff. simpl.
        destruct (string_dec a x) as [->|Hne]; [tauto|]. tauto.
Qed.

Lemma Counter_loop_keys_exact (query : list string) :
  forall c : dict string nat,
  Dict.keys (fold_left (fun c t => Dict.setitem t (Dict.get_default t 0%nat c + 1)%nat c)
                       query c)
  = Dict.keys c ++ first_occurrences (Dict.keys c) query.
Proof.
  induction query as [|a query IH]; intros c; simpl.
  - now rewrite app_nil_r.
  - rewrite IH, keys_setitem.
    destruct (in_dec string_dec a (Dict.keys c)) as [Hin|Hnin].
    + destruct (Dict.get a c) eqn:E; [reflexivity|].
      apply get_None_keys in E. contradiction.
    + apply get_None_keys in Hnin. rewrite Hnin. now rewrite <- app_assoc.
Qed.

Lemma get_default_setitem_same {K V : Type} `{Key K} (k : K) (z v : V)
  (d : dict K V) :
  Dict.get_default k z (Dict.setitem k v d) = v.
Proof. unfold Dict.get_default. now rewrite get_setitem_same. Qed.

Lemma get_default_setitem_other {K V : Type} `{Key K} (k k' : K) (z v : V)
  (d : dict K V) :
  k <> k' -> Dict.get_default k z (Dict.setitem k' v d) = Dict.get_default k z d.
Proof. intros Hne. unfold Dict.get_default. now rewrite get_setitem_other. Qed.

Lemma Counter_loop_get (query : list string) (t : string) :
  forall c : dict string nat,
  Dict.get t (fold_left (fun c t => Dict.setitem t (Dict.get_default t 0%nat c + 1)%nat c)
                        query c)
  = if (count_occ string_dec query t =? 0)%nat then Dict.get t c
    else Some (Dict.get_default t 0%nat c + count_occ string_dec query t)%nat.
Proof.
  induction query as [|a query IH]; intros c; simpl; [reflexivity|].
  rewrite IH. destruct (string_dec a t) as [->|Hne].
  - rewrite get_default_setitem_same, get_setitem_same. simpl.
    destruct (count_occ string_dec query t); simpl; f_equal; lia.
  - rewrite get_default_setitem_other, get_setitem_other by congruence.
    reflexivity.
Qed.

Lemma Counter_NoDup (query : list string) : NoDup (Dict.keys (Counter query)).
Proof.
  unfold Counter. rewrite Counter_loop_keys_exact. simpl.
  apply first_occurrences_spec.
Qed.

Lemma Counter_get (query : list string) (t : string) :
  Dict.get t (Counter query)
  = if (count_occ string_dec query t =? 0)%nat then None
    else Some (count_occ string_dec query t).
Proof. unfold Counter. now rewrite Counter_loop_get. Qed.

Lemma Counter_In (query : list string) (t : string) (f : nat) :
  In (t, f) (Counter query) <->
  In t query /\ f = count_occ string_dec query t.
Proof.
  split.
  - intros Hin. apply In_get in Hin; [|apply Counter_NoDup].
    rewrite Counter_get in Hin.
    destruct (Nat.eqb_spec (count_occ string_dec query t) 0); [discriminate|].
    injection Hin as <-. split; [|reflexivity].
    apply (count_occ_In string_dec). lia.
  - intros [Hin ->]. apply get_In. rewrite Counter_get.
    apply (count_occ_In string_dec) in Hin.
    destruct (Nat.eqb_spec (count_occ string_dec query t) 0); [lia | reflexivity].
Qed.

(** X4. [Counter(query)] has one key per distinct query term, in order of
    first occurrence, and maps each term to the number of times it occurs
    in the query; a term that does not occur has no key. *)
Theorem X4_Counter_counts (query : list string) (t : string) :
  Dict.keys (Counter query) = first_occurrences [] query
  /\ NoDup (Dict.keys (Counter query))
  /\ Dict.get t (Counter query)
     = if (count_occ string_dec query t =? 0)%nat then None
       else Some (count_occ string_dec query t).
Proof.
  split; [|split].
  - unfold Counter. now rewrite Counter_loop_keys_exact.
  - apply Counter_NoDup.
  - apply Counter_get.
Qed.

(** ** The query weights *)

(** The weight the loop gives an item of [qry]. *)
Lemma weights_fst_other (s : state) (n : nat) (t : string) (qry : dict string nat) :
  forall acc : dict string R * R,
  ~ In t (Dict.keys qry) ->
  Dict.get t (fst (fold_left (weights_step s n) qry acc)) = Dict.get t (fst acc).
Proof.
  induction qry as [|[t0 f0] qry IH]; intros acc Hnin; simpl; [reflexivity|].
  rewrite IH by (intros Hin; apply Hnin; now right).
  simpl. apply get_setitem_other. intros ->. apply Hnin. now left.
Qed.

Lemma weights_fst_get (s : state) (n : nat) (t : string) (f : nat)
  (qry : dict string nat) :
  forall acc : dict string R * R,
  NoDup (Dict.keys qry) -> In (t, f) qry ->
  Dict.get t (fst (fold_left (weights_step s n) qry acc))
  = Some (INR f / INR n * idf_val s t).
Proof.
  induction qry as [|[t0 f0] qry IH]; intros acc Hnd Hin; [destruct Hin|].
  simpl in Hnd. inversion Hnd as [|? ? Hnot Hnd']; subst.
  destruct Hin as [[= -> ->]|Hin]; simpl.
  - rewrite weights_fst_other by exact Hnot. simpl. apply get_setitem_same.
  - now apply IH.
Qed.

Lemma weights_snd_sum (s : state) (n : nat) (qry : dict string nat) :
  forall acc : dict string R * R,
  snd (fold_left (weights_step s n) qry acc)
  = snd acc + Rsum (map (fun item => (INR (snd item) / INR n * idf_val s (fst item)) ^ 2)
                        qry).
Proof.
  induction qry as [|item qry IH]; intros acc; simpl.
  - now rewrite Rplus_0_r.
  - rewrite IH. simpl. apply Rplus_assoc.
Qed.

Lemma Rsum_squares_nonneg (l : list R) : 0 <= Rsum (map (fun x => x ^ 2) l).
Proof.
  induction l as [|x l IH]; simpl; [apply Rle_refl|].
  apply Rplus_le_le_0_compat; [apply pow2_ge_0 | exact IH].
Qed.

Lemma Rsum_squares_zero (l : list R) :
  Rsum (map (fun x => x ^ 2) l) = 0 <-> Forall (fun x => x = 0) l.
Proof.
  induction l as [|x l IH]; simpl.
  - split; [constructor | reflexivity].
  - pose proof (pow2_ge_0 x) as Hx.
    pose proof (Rsum_squares_nonneg l) as Hl.
    split.
    + intros Hs.
      assert (Hx0 : x ^ 2 = 0) by lra.
      assert (Hl0 : Rsum (map (fun x => x ^ 2) l) = 0) by lra.
      constructor; [|now apply IH].
      destruct (Req_dec_T x 0) as [E|E]; [exact E|].
      exfalso. apply (pow_nonzero x 2) in E. contradiction.
    + intros Hall. inversion Hall as [|? ? -> Hall']; subst.
      apply IH in Hall'. rewrite Hall'. unfold pow. lra.
Qed.

(** With documents counted, [query_weights] returns, and what it returns is
    the closed form [weights_val]. *)
Lemma query_weights_total (query : list string) (s : state) :
  (0 < NUM_DOCS s)%nat ->
  exists s',
    query_weights query (Counter query) s
    = (Ok (fst (weights_val s query (Counter query)),
           sqrt (snd (weights_val s query (Counter query)))), s')
    /\ extends_empty s s'.
Proof. intros HN. apply query_weights_run; [exact HN | apply Counter_nil_or]. Qed.

Lemma idf_fst (term : string) (s : state) :
  (0 < NUM_DOCS s)%nat -> fst (idf term s) = Ok (idf_val s term).
Proof. intros HN. destruct (idf_run term s HN) as (s' & -> & _). reflexivity. Qed.

(** X5. With documents counted, the weight [tfidf_q[t]] that [score_dt]
    computes for a query term [t] is (occurrences of [t] in the query /
    length of the query) * idf(t), whatever the position and the
    repetitions of [t] in the query. *)
Theorem X5_query_weight_value (query : list string) (t : string) (s : state) :
  (0 < NUM_DOCS s)%nat -> In t query ->
  exists tq qn s' v,
    query_weights query (Counter query) s = (Ok (tq, qn), s')
    /\ fst (idf t s) = Ok v
    /\ Dict.get t tq
       = Some (INR (count_occ string_dec query t) / INR (length query) * v).
Proof.
  intros HN Hin. destruct (query_weights_total query s HN) as (s' & Hq & _).
  eexists _, _, s', (idf_val s t). split; [exact Hq|].
  split; [now apply idf_fst|].
  unfold weights_val. apply weights_fst_get; [apply Counter_NoDup|].
  now apply Counter_In.
Qed.

Lemma X5_query_weight_value_witness :
  exists tq qn s' v,
    query_weights ["duck"; "roast"; "duck"]%string
                  (Counter ["duck"; "roast"; "duck"]%string) example_state
    = (Ok (tq, qn), s')
    /\ fst (idf "duck" example_state) = Ok v
    /\ Dict.get "duck"%string tq = Some (INR 2 / INR 3 * v).
Proof.
  apply (X5_query_weight_value ["duck"; "roast"; "duck"]%string "duck" example_state).
  - cbn. lia.
  - simpl. now left.
Defined.

Lemma qnorm_val_zero_iff (query : list string) (s : state) :
  sqrt (snd (weights_val s query (Counter query))) = 0
  <-> forall t, In t query -> idf_val s t = 0.
Proof.
  unfold weights_val. rewrite weights_snd_sum. simpl. rewrite Rplus_0_l.
  set (w := fun item : string * nat =>
              INR (snd item) / INR (length query) * idf_val s (fst item)).
  change (map (fun item => (INR (snd item) / INR (length query)
                            * idf_val s (fst item)) ^ 2) (Counter query))
    with (map (fun item => w item ^ 2) (Counter query)).
  rewrite <- (map_map w (fun x => x ^ 2)).
  assert (Hw : forall t f, In (t, f) (Counter query) ->
                 (w (t, f) = 0 <-> idf_val s t = 0)).
  { intros t f Hin. apply Counter_In in Hin. destruct Hin as [Hin ->].
    unfold w. simpl.
    assert (Hc : 0 < INR (count_occ string_dec query t)).
    { apply lt_0_INR. now apply (count_occ_In string_dec). }
    assert (Hl : 0 < INR (length query)).
    { apply lt_0_INR. destruct query; [destruct Hin | simpl; lia]. }
    assert (Hr : 0 < INR (count_occ string_dec query t) / INR (length query))
      by now apply Rdiv_lt_0_compat.
    split.
    - intros E. apply Rmult_integral in E. destruct E as [E|E]; [lra | exact E].
    - intros ->. apply Rmult_0_r. }
  split.
  - intros Hz t Hin.
    apply sqrt_eq_0 in Hz; [|apply Rsum_squares_nonneg].
    apply Rsum_squares_zero in Hz. rewrite Forall_map, Forall_forall in Hz.
    apply (Hw t (count_occ string_dec query t)); [now apply Counter_In|].
    apply Hz. now apply Counter_In.
  - intros Hall.
    replace (Rsum (map (fun x => x ^ 2) (map w (Counter query)))) with 0;
      [apply sqrt_0|].
    symmetry. apply Rsum_squares_zero. rewrite Forall_map, Forall_forall.
    intros [t f] Hin. apply (Hw t f Hin).
    apply Counter_In in Hin. destruct Hin as [Hin _]. now apply Hall.
Qed.

Lemma idf_fst_zero (term : string) (s : state) :
  (0 < NUM_DOCS s)%nat -> (fst (idf term s) = Ok 0 <-> idf_val s term = 0).
Proof.
  intros HN. rewrite idf_fst by exact HN. split; [now intros [= ->] | now intros ->].
Qed.

(** X6. With documents counted, whenever the first step of [score_dt]
    returns, the query normalizer it has computed is not negative, and it is
    0 exactly when [idf] is 0 for every term of the query (so for the empty
    query, and for queries made of terms that occur in no document or in
    [NUM_DOCS] documents). *)
Theorem X6_returned_qnorm_zero_iff (query : list string) (s s' : state)
  (tq : dict string R) (qn : R) :
  (0 < NUM_DOCS s)%nat ->
  query_weights query (Counter query) s = (Ok (tq, qn), s') ->
  0 <= qn
  /\ (qn = 0 <-> forall t, In t query -> fst (idf t s) = Ok 0).
Proof.
  intros HN Hrun. destruct (query_weights_total query s HN) as (s1 & Hq & _).
  rewrite Hq in Hrun. injection Hrun as _ <- _.
  split; [apply sqrt_pos|].
  rewrite qnorm_val_zero_iff. split.
  - intros Hall t Hin. apply idf_fst_zero; [exact HN | now apply Hall].
  - intros Hall t Hin. apply idf_fst_zero; [exact HN | now apply Hall].
Qed.

Lemma X6_returned_qnorm_zero_iff_witness :
  0 <= example_qnorm
  /\ (example_qnorm = 0 <-> forall t, In t example_query ->
                                      fst (idf t example_state) = Ok 0).
Proof.
  apply (X6_returned_qnorm_zero_iff example_query example_state
           (grow example_state (repeat [] 6)) example_tfidf_q example_qnorm).
  - cbn. lia.
  - exact example_query_weights.
Defined.

(** ** score_dt *)

Lemma sweep_loop_grow (qry : dict string nat) (tq : dict string R) (qn : R)
  (s : state) (k : list (list posting)) (docs : list nat) :
  forall scores : dict nat R,
  exists r,
    foldM (score_doc qry tq qn) docs scores s = (r, s)
    /\ foldM (score_doc qry tq qn) docs scores (grow s k) = (r, grow s k).
Proof.
  induction docs as [|d docs IH]; intros scores; simpl.
  - exists (Ok scores). now split.
  - unfold bind. rewrite !score_doc_run.
    change (dnorm (grow s k)) with (dnorm s).
    destruct (has_weights tq (Dict.keys qry)); [|now exists (Raise KeyError)].
    destruct (Dict.get d (dnorm s)) as [v|]; [|now exists (Raise KeyError)].
    destruct (Req_dec_T (qn * v) 0); [now exists (Raise ZeroDivisionError)|].
    apply IH.
Qed.

Lemma sweep_loop_inv (qry : dict string nat) (tq : dict string R) (qn : R)
  (s : state) (docs : list nat) :
  forall (scores m : dict nat R) (s' : state),
  foldM (score_doc qry tq qn) docs scores s = (Ok m, s') ->
  forall d, In d docs -> scorable s qn d.
Proof.
  induction docs as [|d0 docs IH]; intros scores m s' Hrun d Hd; [destruct Hd|].
  simpl in Hrun. unfold bind in Hrun. rewrite score_doc_run in Hrun.
  destruct (has_weights tq (Dict.keys qry)); [|discriminate].
  destruct (Dict.get d0 (dnorm s)) as [v|] eqn:E; [|discriminate].
  destruct (Req_dec_T (qn * v) 0) as [|Hne]; [discriminate|].
  destruct Hd as [<-|Hd].
  - exists v. now split.
  - now apply (IH _ _ _ Hrun).
Qed.

(** X7. The scores do not depend on the [index] argument: [score_dt] reads
    it only to copy posting lists that the sweep never looks at, and [idf]
    uses the global [idx].  Two calls with the same query and different
    indexes have the same outcome. *)
Theorem X7_score_dt_ignores_index (query : list string) (index1 index2 : InvIndex)
  (s : state) :
  fst (score_dt query index1 s) = fst (score_dt query index2 s).
Proof.
  rewrite !score_dt_of_locals.
  destruct (query_weights query (Counter query) s) as [[[tq qn]|e] s1] eqn:Hq.
  - destruct (score_dt_locals_run query index1 tq qn s s1 Hq)
      as (pl1 & k1 & _ & _ & _ & ->).
    destruct (score_dt_locals_run query index2 tq qn s s1 Hq)
      as (pl2 & k2 & _ & _ & _ & ->).
    destruct (sweep_loop_grow (Counter query) tq qn s k1 (seq 0 (NUM_DOCS s)) [])
      as (r1 & Hs1 & ->).
    destruct (sweep_loop_grow (Counter query) tq qn s k2 (seq 0 (NUM_DOCS s)) [])
      as (r2 & Hs2 & ->).
    rewrite Hs1 in Hs2. injection Hs2 as <-.
    now destruct r1.
  - unfold score_dt_locals, bind. now rewrite Hq.
Qed.

Lemma score_dt_returns_iff (query : list string) (index : InvIndex)
  (s s1 : state) (tq : dict string R) (qn : R) :
  query_weights query (Counter query) s = (Ok (tq, qn), s1) ->
  (exists m s', score_dt query index s = (Ok m, s'))
  <-> (forall d, (d < NUM_DOCS s)%nat -> scorable s qn d).
Proof.
  intros Hq. split.
  - intros (m & s' & Hrun) d Hd. rewrite score_dt_of_locals in Hrun.
    destruct (score_dt_locals_run query index tq qn s s1 Hq)
      as (pl & k & _ & _ & _ & E).
    rewrite E in Hrun.
    destruct (foldM _ _ _ _) as [[sc|e] s3] eqn:Hsw; [|discriminate].
    apply (sweep_loop_inv _ _ _ _ _ _ _ _ Hsw d). apply in_seq. lia.
  - intros Hs.
    destruct (score_dt_locals_ok query index tq qn s s1 Hq Hs)
      as (pl & k & _ & _ & Hrun).
    exists (zero_scores (NUM_DOCS s)), (grow s k).
    now rewrite score_dt_of_locals, Hrun.
Qed.

(** X8. Once the query weights are computed, [score_dt] returns a mapping
    exactly when every document in [0, NUM_DOCS) has an entry in [dnorm]
    whose product with the query normalizer is not 0; otherwise it raises. *)
Theorem X8_score_dt_returns_iff (query : list string) (index : InvIndex)
  (s s1 : state) (tq : dict string R) (qn : R) :
  query_weights query (Counter query) s = (Ok (tq, qn), s1) ->
  (exists m s', score_dt query index s = (Ok m, s'))
  <-> (forall d, (d < NUM_DOCS s)%nat -> exists v,
         Dict.get d (dnorm s) = Some v /\ qn * v <> 0).
Proof. intros Hq. now apply (score_dt_returns_iff query index s s1 tq qn). Qed.

Lemma X8_score_dt_returns_iff_witness :
  (exists m s', score_dt example_query (idx example_state) example_state = (Ok m, s'))
  <-> (forall d, (d < 5)%nat -> exists v,
         Dict.get d example_dnorm = Some v /\ example_qnorm * v <> 0).
Proof.
  apply (X8_score_dt_returns_iff example_query (idx example_state) example_state
           (grow example_state (repeat [] 6)) example_tfidf_q example_qnorm).
  exact example_query_weights.
Defined.

Lemma fetch_loop_keys (index : InvIndex) (terms : list string) :
  forall (plists plists' : dict string loc) (s s' : state),
  NoDup terms -> (forall t, In t terms -> ~ In t (Dict.keys plists)) ->
  foldM (fetch_term index) terms plists s = (Ok plists', s') ->
  Dict.keys plists' = Dict.keys plists ++ terms.
Proof.
  induction terms as [|t terms IH]; intros plists plists' s s' Hnd Hdis Hrun.
  - injection Hrun as <- _. now rewrite app_nil_r.
  - simpl in Hrun. unfold bind in Hrun. rewrite fetch_term_run in Hrun.
    inversion Hnd as [|? ? Hnot Hnd']; subst.
    apply IH in Hrun; [|exact Hnd'|].
    + rewrite Hrun, keys_setitem.
      assert (E : Dict.get t plists = None).
      { apply get_None_keys. apply Hdis. now left. }
      rewrite E. now rewrite <- app_assoc.
    + intros t' Ht'. rewrite keys_setitem.
      assert (E : Dict.get t plists = None).
      { apply get_None_keys. apply Hdis. now left. }
      rewrite E, in_app_iff. simpl. intros [Hin|[->|[]]].
      * apply (Hdis t'); [now right | exact Hin].
      * contradiction.
Qed.

(** The steps of a call that returned. *)
Lemma score_dt_locals_inv (query : list string) (index : InvIndex)
  (l : locals) (s s' : state) :
  score_dt_locals query index s = (Ok l, s') ->
  exists tq qn s1,
    query_weights query (Counter query) s = (Ok (tq, qn), s1)
    /\ fetch_plists index (Counter query) s1 = (Ok (plists l), s')
    /\ qry l = Counter query.
Proof.
  unfold score_dt_locals, bind. intros Hrun.
  destruct (query_weights query (Counter query) s) as [[[tq qn]|e] s1] eqn:Hq;
    [|discriminate].
  destruct (fetch_plists index (Counter query) s1) as [[pl|e] s2] eqn:Hf;
    [|discriminate].
  destruct (sweep (Counter query) tq qn s2) as [[sc|e] s3] eqn:Hsw;
    [|discriminate].
  injection Hrun as <- <-. simpl.
  unfold sweep, bind, gets in Hsw.
  destruct (foldM _ _ _ _) as [[sc'|e] s4] eqn:Hl; [|discriminate].
  destruct (sweep_loop_any _ _ _ _ _ _ _ _ Hl) as [_ ->].
  injection Hsw as _ <-.
  now exists tq, qn, s1.
Qed.

(** X9. When [score_dt] returns, [plists] holds one private copy per
    distinct query term, in order of first occurrence, and each copy still
    has every posting of the term's list in the index (none for a term the
    index does not know): the sweep has consumed nothing. *)
Theorem X9_plists_hold_all_postings (query : list string) (index : InvIndex)
  (l : locals) (s s' : state) :
  index_wf s index ->
  score_dt_locals query index s = (Ok l, s') ->
  map (fun e => (fst e, contents s' (snd e))) (plists l)
  = map (fun t => (t, index_postings s index t)) (first_occurrences [] query).
Proof.
  intros Hwf Hrun.
  destruct (score_dt_locals_inv _ _ _ _ _ Hrun) as (tq & qn & s1 & Hq & Hf & _).
  pose proof (frames_query_weights _ _ _ _ _ Hq) as He1.
  destruct (fetch_plists_run index (Counter query) s1)
    as (pl & s2 & Hf' & He2 & Hp & _).
  rewrite Hf in Hf'. injection Hf' as <- <-.
  apply (private_copies_weaken s s1 s' index (plists l) He1) in Hp.
  assert (Hkeys : Dict.keys (plists l) = Dict.keys (Counter query)).
  { unfold fetch_plists in Hf.
    apply fetch_loop_keys in Hf; [exact Hf | apply Counter_NoDup |].
    intros t _ []. }
  assert (Hfo : Dict.keys (Counter query) = first_occurrences [] query).
  { unfold Counter. now rewrite Counter_loop_keys_exact. }
  rewrite <- Hfo, <- Hkeys. unfold Dict.keys. rewrite map_map.
  apply map_ext_in. intros [t p] Hin. simpl. f_equal.
  apply (Hp t p); [|exact Hwf].
  apply In_get; [|exact Hin]. rewrite Hkeys. apply Counter_NoDup.
Qed.

Lemma X9_plists_hold_all_postings_witness :
  map (fun e => (fst e, contents example_final (snd e))) (plists example_locals)
  = map (fun t => (t, index_postings example_state (idx example_state) t))
        (first_occurrences [] example_query).
Proof.
  apply (X9_plists_hold_all_postings example_query (idx example_state)
           example_locals example_state example_final).
  - exact example_index_wf.
  - exact example_score_dt_locals.
Defined.

(** ** Cell 4: building the index *)

Lemma cell4_unfold :
  cell4 = (modify (fun s => with_inv_idx s []) ;;
           modify (fun s => with_doclen s []) ;;
           td <- gets td_matrix ;;
           for_ (Dict.items td) index_row).
Proof. reflexivity. Qed.

Lemma update_last {A : Type} (h : list A) (c x : A) :
  update (length h) x (h ++ [c]) = h ++ [x].
Proof. induction h as [|y h IH]; simpl; [reflexivity | now rewrite IH]. Qed.

Lemma nth_last {A : Type} (h : list A) (c z : A) : nth (length h) (h ++ [c]) z = c.
Proof. rewrite app_nth2 by lia. now rewrite Nat.sub_diag. Qed.

Lemma index_entries_run (term : string) (items : list (nat * nat)) :
  forall (s : state) (h : list (list posting)) (c : list posting),
  heap s = h ++ [c] ->
  Dict.get term (inv_idx s) = Some (length h) ->
  for_ items (index_entry term) s =
  (Ok tt,
   mkState (td_matrix s) (NUM_DOCS s) (inv_idx s)
           (accum 0%nat Nat.add (fun _ f => f)
                  (filter (fun e => (0 <? snd e)%nat) items) (doclen s))
           (idx s) (dnorm s)
           (h ++ [c ++ filter (fun e => (0 <? snd e)%nat) items])).
Proof.
  induction items as [|[d f] items IH]; intros s h c Hh Hg.
  - simpl. unfold ret. rewrite app_nil_r, <- Hh. now destruct s.
  - cbn [for_]. unfold bind. unfold index_entry at 1. cbn [filter snd].
    destruct (0 <? f)%nat eqn:Hf.
    + unfold bind, gets, getitem. rewrite Hg. unfold ret at 1.
      unfold append, modify. simpl.
      rewrite (IH _ h (c ++ [(d, f)])).
      * unfold with_doclen, with_heap. simpl. now rewrite <- app_assoc.
      * simpl. unfold contents. rewrite Hh, nth_last. apply update_last.
      * exact Hg.
    + unfold ret at 1. now apply IH.
Qed.

Lemma index_row_run (term : string) (vec : list nat) (s : state) :
  index_row (term, vec) s =
  (Ok tt,
   mkState (td_matrix s) (NUM_DOCS s)
           (Dict.setitem term (length (heap s)) (inv_idx s))
           (accum 0%nat Nat.add (fun _ f => f) (positive_entries 0 vec) (doclen s))
           (idx s) (dnorm s)
           (heap s ++ [positive_entries 0 vec])).
Proof.
  unfold index_row, bind, alloc, modify.
  rewrite (index_entries_run term (enumerate vec) _ (heap s) []).
  - reflexivity.
  - reflexivity.
  - simpl. apply get_setitem_same.
Qed.

Lemma index_rows_run (td : dict string (list nat)) :
  forall s : state,
  for_ td index_row s =
  (Ok tt,
   mkState (td_matrix s) (NUM_DOCS s)
           (index_rows (length (heap s)) td (inv_idx s))
           (accum_rows 0%nat Nat.add (fun _ _ f => f) td (doclen s))
           (idx s) (dnorm s)
           (heap s ++ map (fun row => positive_entries 0 (snd row)) td)).
Proof.
  induction td as [|[term vec] td IH]; intros s.
  - simpl. unfold ret. rewrite app_nil_r. now destruct s.
  - cbn [for_]. unfold bind. rewrite index_row_run, IH. simpl.
    rewrite length_app, <- app_assoc. simpl. rewrite Nat.add_1_r. reflexivity.
Qed.

(** Cell 4 never raises, and leaves [cell4_result]. *)
Lemma cell4_run (s : state) : cell4 s = (Ok tt, cell4_result s).
Proof.
  rewrite cell4_unfold. unfold bind, modify, gets, Dict.items.
  rewrite index_rows_run. reflexivity.
Qed.

Lemma positive_entries_cons (a f : nat) (vec : list nat) :
  positive_entries a (f :: vec)
  = if (0 <? f)%nat then (a, f) :: positive_entries (S a) vec
    else positive_entries (S a) vec.
Proof. unfold positive_entries. simpl. now destruct (0 <? f)%nat. Qed.

Lemma positive_entries_In (vec : list nat) :
  forall a d f,
  In (d, f) (positive_entries a vec)
  <-> (a <= d)%nat /\ nth_error vec (d - a) = Some f /\ (0 < f)%nat.
Proof.
  induction vec as [|f0 vec IH]; intros a d f.
  - unfold positive_entries. simpl. split; [intros [] | intros (_ & H & _)].
    now destruct (d - a)%nat.
  - rewrite positive_entries_cons.
    assert (Hrest : In (d, f) (positive_entries (S a) vec)
                    <-> (a < d)%nat /\ nth_error (f0 :: vec) (d - a) = Some f
                        /\ (0 < f)%nat).
    { rewrite IH. split.
      - intros (Hle & Hn & Hf). split; [lia|]. split; [|exact Hf].
        replace (d - a)%nat with (S (d - S a)) by lia. exact Hn.
      - intros (Hlt & Hn & Hf). split; [lia|]. split; [|exact Hf].
        replace (d - a)%nat with (S (d - S a)) in Hn by lia. exact Hn. }
    destruct (Nat.ltb_spec 0 f0) as [Hpos|Hz].
    + simpl. rewrite Hrest. split.
      * intros [[= <- <-]|(Hlt & Hn & Hf)].
        -- split; [lia|]. rewrite Nat.sub_diag. now split.
        -- split; [lia|]. now split.
      * intros (Hle & Hn & Hf).
        destruct (Nat.eq_dec a d) as [->|Hne].
        -- left. rewrite Nat.sub_diag in Hn. simpl in Hn. now injection Hn as ->.
        -- right. split; [lia|]. now split.
    + rewrite Hrest. split.
      * intros (Hlt & Hn & Hf). split; [lia|]. now split.
      * intros (Hle & Hn & Hf).
        destruct (Nat.eq_dec a d) as [->|Hne].
        -- rewrite Nat.sub_diag in Hn. simpl in Hn. injection Hn as ->. lia.
        -- split; [lia|]. now split.
Qed.

Lemma positive_entries_sorted (vec : list nat) :
  forall a, StronglySorted lt (map fst (positive_entries a vec)).
Proof.
  induction vec as [|f0 vec IH]; intros a.
  - constructor.
  - rewrite positive_entries_cons. destruct (0 <? f0)%nat; [|apply IH].
    simpl. constructor; [apply IH|].
    apply Forall_forall. intros d Hd. apply in_map_iff in Hd.
    destruct Hd as ([d' f] & <- & Hin). apply positive_entries_In in Hin.
    simpl. lia.
Qed.

Section Accum.
Context {V : Type} (zero : V) (add : V -> V -> V).

Lemma accum_cons (w : nat -> nat -> V) (e : posting) (ps : list posting)
  (dl : dict nat V) :
  accum zero add w (e :: ps) dl
  = accum zero add w ps
      (Dict.setitem (fst e)
                    (add (Dict.get_default (fst e) zero dl) (w (fst e) (snd e))) dl).
Proof. reflexivity. Qed.

Lemma accum_rows_cons (w : string -> nat -> nat -> V) (row : string * list nat)
  (td : dict string (list nat)) (dl : dict nat V) :
  accum_rows zero add w (row :: td) dl
  = accum_rows zero add w td
      (accum zero add (w (fst row)) (positive_entries 0 (snd row)) dl).
Proof. reflexivity. Qed.

Lemma accum_row_get (w : nat -> nat -> V) (vec : list nat) :
  forall (a d : nat) (dl : dict nat V),
  Dict.get d (accum zero add w (positive_entries a vec) dl)
  = if ((a <=? d) && (0 <? nth (d - a) vec 0))%nat
    then Some (add (Dict.get_default d zero dl) (w d (nth (d - a) vec 0%nat)))
    else Dict.get d dl.
Proof.
  induction vec as [|f0 vec IH]; intros a d dl.
  - unfold positive_entries. simpl.
    destruct (d - a)%nat; simpl; now rewrite andb_false_r.
  - rewrite positive_entries_cons.
    destruct (Nat.lt_trichotomy d a) as [Hlt|[->|Hgt]].
    + assert (E1 : (a <=? d)%nat = false) by (apply Nat.leb_gt; lia).
      assert (E2 : (S a <=? d)%nat = false) by (apply Nat.leb_gt; lia).
      rewrite E1. simpl.
      destruct (0 <? f0)%nat.
      * rewrite accum_cons, IH, E2. simpl.
        apply get_setitem_other. lia.
      * rewrite IH, E2. reflexivity.
    + assert (E2 : (S a <=? a)%nat = false) by (apply Nat.leb_gt; lia).
      rewrite Nat.leb_refl, Nat.sub_diag. simpl.
      destruct (0 <? f0)%nat.
      * rewrite accum_cons, IH, E2. simpl.
        apply get_setitem_same.
      * rewrite IH, E2. reflexivity.
    + assert (E1 : (a <=? d)%nat = true) by (apply Nat.leb_le; lia).
      assert (E2 : (S a <=? d)%nat = true) by (apply Nat.leb_le; lia).
      rewrite E1. replace (d - a)%nat with (S (d - S a)) by lia. simpl.
      destruct (0 <? f0)%nat.
      * rewrite accum_cons, IH, E2. simpl.
        rewrite get_default_setitem_other, get_setitem_other by lia.
        reflexivity.
      * rewrite IH, E2. reflexivity.
Qed.

Lemma accum_value_absent (w : string -> nat -> nat -> V)
  (td : dict string (list nat)) (d : nat) (acc : V) :
  existsb (fun row => (0 <? nth d (snd row) 0)%nat) td = false ->
  accum_value add w td d acc = acc.
Proof.
  revert acc. induction td as [|row td IH]; intros acc Hex; [reflexivity|].
  simpl in Hex. apply orb_false_iff in Hex. destruct Hex as [Hrow Htd].
  unfold accum_value. simpl. rewrite Hrow. now apply IH.
Qed.

Lemma accum_value_cons (w : string -> nat -> nat -> V) (row : string * list nat)
  (td : dict string (list nat)) (d : nat) (acc : V) :
  accum_value add w (row :: td) d acc
  = accum_value add w td d
      (if (0 <? nth d (snd row) 0)%nat
       then add acc (w (fst row) d (nth d (snd row) 0%nat))
       else acc).
Proof. reflexivity. Qed.

Lemma accum_rows_get (w : string -> nat -> nat -> V) (td : dict string (list nat))
  (d : nat) :
  forall dl : dict nat V,
  Dict.get d (accum_rows zero add w td dl)
  = if existsb (fun row => (0 <? nth d (snd row) 0)%nat) td
    then Some (accum_value add w td d (Dict.get_default d zero dl))
    else Dict.get d dl.
Proof.
  induction td as [|row td IH]; intros dl; [reflexivity|].
  rewrite accum_rows_cons, IH, accum_value_cons.
  unfold Dict.get_default at 1.
  rewrite (accum_row_get (w (fst row)) (snd row) 0 d dl).
  rewrite Nat.sub_0_r. cbn [existsb Nat.leb andb].
  destruct (0 <? nth d (snd row) 0)%nat; cbn [orb].
  - destruct (existsb _ td) eqn:Hex; [reflexivity|].
    now rewrite accum_value_absent.
  - reflexivity.
Qed.
End Accum.

Lemma index_rows_other (t : string) (td : dict string (list nat)) :
  forall (base : nat) (ii : dict string loc),
  ~ In t (Dict.keys td) -> Dict.get t (index_rows base td ii) = Dict.get t ii.
Proof.
  induction td as [|row td IH]; intros base ii Hnin; simpl; [reflexivity|].
  rewrite IH by (intros Hin; apply Hnin; now right).
  apply get_setitem_other. intros ->. apply Hnin. now left.
Qed.

Lemma index_rows_get (t : string) (vec : list nat) (td : dict string (list nat)) :
  forall (i base : nat) (ii : dict string loc),
  NoDup (Dict.keys td) -> nth_error td i = Some (t, vec) ->
  Dict.get t (index_rows base td ii) = Some (base + i)%nat.
Proof.
  induction td as [|row td IH]; intros i base ii Hnd Hn.
  - now destruct i.
  - simpl in Hnd. inversion Hnd as [|? ? Hnot Hnd']; subst.
    destruct i as [|i]; simpl in Hn.
    + injection Hn as ->. simpl in Hnot |- *.
      rewrite index_rows_other by exact Hnot.
      rewrite get_setitem_same. f_equal. lia.
    + simpl. rewrite (IH i) by assumption. f_equal. lia.
Qed.

Lemma index_rows_range (td : dict string (list nat)) :
  forall (base lo : nat) (ii : dict string loc),
  (lo <= base)%nat ->
  Forall (fun e => (lo <= snd e < base)%nat) ii ->
  Forall (fun e => (lo <= snd e < base + length td)%nat) (index_rows base td ii).
Proof.
  induction td as [|row td IH]; intros base lo ii Hlo Hii; simpl.
  - rewrite Nat.add_0_r. exact Hii.
  - replace (base + S (length td))%nat with (S base + length td)%nat by lia.
    apply IH; [lia|].
    clear IH. induction ii as [|[k p] ii IHii]; simpl.
    + constructor; [simpl; lia | constructor].
    + inversion Hii as [|? ? Hp Hii']; subst. simpl in Hp.
      destruct (fst row =? k)%string.
      * constructor; [simpl; lia|].
        eapply Forall_impl; [|exact Hii']. simpl. intros; lia.
      * constructor; [simpl; lia | now apply IHii].
Qed.

Lemma cell4_row_contents (s : state) (term : string) (vec : list nat) (i : nat) :
  NoDup (Dict.keys (td_matrix s)) ->
  nth_error (td_matrix s) i = Some (term, vec) ->
  Dict.get term (inv_idx (cell4_result s)) = Some (length (heap s) + i)%nat
  /\ contents (cell4_result s) (length (heap s) + i) = positive_entries 0 vec.
Proof.
  intros Hnd Hi. split; [now apply (index_rows_get term vec)|].
  unfold contents, cell4_result. simpl.
  rewrite app_nth2 by lia.
  replace (length (heap s) + i - length (heap s))%nat with i by lia.
  apply nth_error_nth. rewrite nth_error_map, Hi. reflexivity.
Qed.

(** X10. Cell 4 never raises.  For a matrix with distinct terms, the
    posting list it builds for a row [(term, vec)] is the row's positive
    entries: it holds [(d, f)] exactly when [vec[d] = f > 0], and it is in
    strictly increasing order of DocumentID. *)
Theorem X10_cell4_posting_lists (s : state) (term : string) (vec : list nat) :
  NoDup (Dict.keys (td_matrix s)) ->
  In (term, vec) (td_matrix s) ->
  exists s' p,
    cell4 s = (Ok tt, s')
    /\ Dict.get term (inv_idx s') = Some p
    /\ contents s' p = filter (fun e => (0 <? snd e)%nat) (enumerate vec)
    /\ StronglySorted lt (map fst (contents s' p))
    /\ (forall d f, In (d, f) (contents s' p)
                    <-> nth_error vec d = Some f /\ (0 < f)%nat).
Proof.
  intros Hnd Hin. apply In_nth_error in Hin. destruct Hin as [i Hi].
  destruct (cell4_row_contents s term vec i Hnd Hi) as [Hg Hc].
  exists (cell4_result s), (length (heap s) + i)%nat.
  split; [apply cell4_run|]. split; [exact Hg|].
  rewrite Hc. split; [reflexivity|]. split; [apply positive_entries_sorted|].
  intros d f. rewrite positive_entries_In, Nat.sub_0_r. split.
  - intros (_ & Hn & Hf). now split.
  - intros (Hn & Hf). split; [lia|]. now split.
Qed.

Lemma X10_cell4_posting_lists_witness :
  exists s' p,
    cell4 (init example_td_matrix 5) = (Ok tt, s')
    /\ Dict.get "duck"%string (inv_idx s') = Some p
    /\ contents s' p = [(0, 3); (1, 2); (2, 2); (4, 1)]%nat
    /\ StronglySorted lt (map fst (contents s' p))
    /\ (forall d f, In (d, f) (contents s' p)
                    <-> nth_error [3; 2; 2; 0; 1]%nat d = Some f /\ (0 < f)%nat).
Proof.
  apply (X10_cell4_posting_lists (init example_td_matrix 5) "duck"
           [3; 2; 2; 0; 1]%nat).
  - simpl. repeat constructor; simpl; intuition discriminate.
  - simpl. right. right. now left.
Defined.

Lemma doc_length_value (td : dict string (list nat)) (d : nat) :
  forall acc : nat,
  accum_value Nat.add (fun _ _ f => f) td d acc = (acc + doc_length td d)%nat.
Proof.
  induction td as [|row td IH]; intros acc.
  - unfold doc_length. simpl. lia.
  - rewrite accum_value_cons, IH. unfold doc_length. simpl.
    destruct (Nat.ltb_spec 0 (nth d (snd row) 0%nat)); lia.
Qed.

Lemma doc_length_exists (td : dict string (list nat)) (d : nat) :
  existsb (fun row => (0 <? nth d (snd row) 0)%nat) td
  = negb (doc_length td d =? 0)%nat.
Proof.
  induction td as [|row td IH]; [reflexivity|].
  unfold doc_length in *. simpl. rewrite IH.
  destruct (Nat.ltb_spec 0 (nth d (snd row) 0%nat)) as [Hpos|Hz].
  - simpl. symmetry. apply negb_true_iff. apply Nat.eqb_neq. lia.
  - simpl. replace (nth d (snd row) 0%nat) with 0%nat by lia. reflexivity.
Qed.

Lemma cell4_doclen_get (s : state) (d : nat) :
  Dict.get d (doclen (cell4_result s))
  = if (doc_length (td_matrix s) d =? 0)%nat then None
    else Some (doc_length (td_matrix s) d).
Proof.
  unfold cell4_result. simpl. rewrite accum_rows_get, doc_length_exists.
  rewrite doc_length_value. simpl.
  now destruct (doc_length (td_matrix s) d =? 0)%nat.
Qed.

(** X11. After cell 4, [doclen[d]] is the sum over all rows of the
    frequencies of document [d], and a document all of whose frequencies are
    0 has no entry in [doclen]. *)
Theorem X11_cell4_doclen (s : state) (d : nat) :
  exists s',
    cell4 s = (Ok tt, s')
    /\ Dict.get d (doclen s')
       = if (list_sum (map (fun row => nth d (snd row) 0%nat) (td_matrix s)) =? 0)%nat
         then None
         else Some (list_sum (map (fun row => nth d (snd row) 0%nat) (td_matrix s))).
Proof.
  exists (cell4_result s). split; [apply cell4_run | apply cell4_doclen_get].
Qed.

(** X12. Cell 4 writes to no list object that existed before it ran: it
    allocates one new list per row after the existing ones, and every
    location it stores in [inv_idx] is one of these new lists.  The other
    global names keep their values. *)
Theorem X12_cell4_allocates_fresh_lists (s : state) :
  exists s' k,
    cell4 s = (Ok tt, s')
    /\ heap s' = heap s ++ k
    /\ length k = length (td_matrix s)
    /\ Forall (fun e => (length (heap s) <= snd e < length (heap s'))%nat)
              (inv_idx s')
    /\ td_matrix s' = td_matrix s /\ NUM_DOCS s' = NUM_DOCS s
    /\ idx s' = idx s /\ dnorm s' = dnorm s.
Proof.
  exists (cell4_result s),
         (map (fun row => positive_entries 0 (snd row)) (td_matrix s)).
  split; [apply cell4_run|]. split; [reflexivity|].
  split; [apply length_map|]. split; [|now repeat split].
  unfold cell4_result. simpl. rewrite length_app, length_map.
  apply index_rows_range; [lia | constructor].
Qed.

(** ** Cell 8: the document normalizers *)

Lemma idf_val_frame (s : state) (k : list (list posting)) (dn : dict nat R)
  (term : string) :
  Forall (fun l => l = []) k ->
  idf_val (with_dnorm (grow s k) dn) term = idf_val s term.
Proof.
  intros Hk.
  change (idf_val (with_dnorm (grow s k) dn) term) with (idf_val (grow s k) term).
  apply idf_val_extends_empty. now exists k.
Qed.

Lemma dnorm_add_gen (s : state) (k : list (list posting)) (dn : dict nat R)
  (term : string) (d f n : nat) :
  (0 < NUM_DOCS s)%nat -> Forall (fun l => l = []) k ->
  (0 < f)%nat -> Dict.get d (doclen s) = Some n -> (0 < n)%nat ->
  exists k',
    Forall (fun l => l = []) k'
    /\ dnorm_add term (d, f) (with_dnorm (grow s k) dn)
       = (Ok tt,
          with_dnorm (grow s k')
            (Dict.setitem d (Dict.get_default d 0 dn + norm_term s term d f) dn)).
Proof.
  intros HN Hk Hf Hd Hn. unfold dnorm_add.
  destruct (Nat.ltb_spec 0 f) as [_|Hc]; [|lia].
  unfold bind, gets, getitem.
  change (doclen (with_dnorm (grow s k) dn)) with (doclen s). rewrite Hd.
  unfold ret at 1.
  rewrite pydiv_ok by (apply not_0_INR; lia).
  destruct (idf_run term (with_dnorm (grow s k) dn) HN) as (s' & -> & k2 & Hk2 & ->).
  rewrite idf_val_frame by exact Hk.
  exists (k ++ k2). split; [apply Forall_app; now split|].
  unfold modify, norm_term, Dict.get_default at 3. rewrite Hd.
  unfold with_dnorm, grow, with_heap. simpl. now rewrite app_assoc.
Qed.

Lemma dnorm_entries_run (s : state) (term : string) (items : list (nat * nat)) :
  (0 < NUM_DOCS s)%nat ->
  (forall d f, In (d, f) (filter (fun e => (0 <? snd e)%nat) items) ->
               exists n, Dict.get d (doclen s) = Some n /\ (0 < n)%nat) ->
  forall (k : list (list posting)) (dn : dict nat R),
  Forall (fun l => l = []) k ->
  exists k',
    Forall (fun l => l = []) k'
    /\ for_ items (dnorm_add term) (with_dnorm (grow s k) dn)
       = (Ok tt,
          with_dnorm (grow s k')
            (accum 0 Rplus (norm_term s term)
                   (filter (fun e => (0 <? snd e)%nat) items) dn)).
Proof.
  intros HN. induction items as [|[d f] items IH]; intros Hcov k dn Hk.
  - exists k. now split.
  - cbn [for_ filter snd]. unfold bind.
    destruct (Nat.ltb_spec 0 f) as [Hf|Hf].
    + destruct (Hcov d f) as (n & Hd & Hn).
      { cbn [filter snd]. destruct (Nat.ltb_spec 0 f); [now left | lia]. }
      destruct (dnorm_add_gen s k dn term d f n HN Hk Hf Hd Hn) as (k1 & Hk1 & ->).
      apply IH; [|exact Hk1].
      intros d' f' Hin. apply (Hcov d' f'). cbn [filter snd].
      destruct (Nat.ltb_spec 0 f); [now right | lia].
    + replace f with 0%nat by lia. rewrite dnorm_add_skip.
      apply IH; [|exact Hk].
      intros d' f' Hin. apply (Hcov d' f'). cbn [filter snd].
      destruct (Nat.ltb_spec 0 f); [lia | exact Hin].
Qed.

Lemma dnorm_rows_run (s : state) (td : dict string (list nat)) :
  (0 < NUM_DOCS s)%nat ->
  (forall row d f, In row td -> In (d, f) (positive_entries 0 (snd row)) ->
                   exists n, Dict.get d (doclen s) = Some n /\ (0 < n)%nat) ->
  forall (k : list (list posting)) (dn : dict nat R),
  Forall (fun l => l = []) k ->
  exists k',
    Forall (fun l => l = []) k'
    /\ for_ td (fun '(term, vec) => for_ (enumerate vec) (dnorm_add term))
            (with_dnorm (grow s k) dn)
       = (Ok tt, with_dnorm (grow s k') (accum_rows 0 Rplus (norm_term s) td dn)).
Proof.
  intros HN. induction td as [|[term vec] td IH]; intros Hcov k dn Hk.
  - exists k. now split.
  - cbn [for_]. unfold bind.
    destruct (dnorm_entries_run s term (enumerate vec) HN) with (k := k) (dn := dn)
      as (k1 & Hk1 & ->); [|exact Hk|].
    + intros d f Hin. apply (Hcov (term, vec) d f); [now left | exact Hin].
    + apply IH; [|exact Hk1].
      intros row d f Hrow. apply (Hcov row d f). now right.
Qed.

Section MapValues.
Context {K V W : Type} `{Key K} (g : V -> W).

Lemma get_map_values (k : K) (d : dict K V) :
  Dict.get k (map (fun e => (fst e, g (snd e))) d) = option_map g (Dict.get k d).
Proof.
  induction d as [|[k' v] d IH]; simpl; [reflexivity|].
  now destruct (key_eqb k k').
Qed.

Lemma keys_map_values (d : dict K V) :
  Dict.keys (map (fun e => (fst e, g (snd e))) d) = Dict.keys d.
Proof. unfold Dict.keys. rewrite map_map. reflexivity. Qed.

End MapValues.

Lemma NoDup_keys_setitem {K V : Type} `{Key K} (k : K) (v : V) (d : dict K V) :
  NoDup (Dict.keys d) -> NoDup (Dict.keys (Dict.setitem k v d)).
Proof.
  intros Hnd. rewrite keys_setitem. destruct (Dict.get k d) eqn:E; [exact Hnd|].
  apply get_None_keys in E.
  apply NoDup_app; [exact Hnd | repeat constructor; intros [] |].
  intros x Hx [<-|[]]. contradiction.
Qed.

Lemma setitem_middle {K V : Type} `{Key K} (k : K) (v w : V) (pre post : dict K V) :
  ~ In k (Dict.keys pre) ->
  Dict.setitem k w (pre ++ (k, v) :: post) = pre ++ (k, w) :: post.
Proof.
  induction pre as [|[k' v'] pre IH]; simpl; intros Hnin.
  - now rewrite key_eqb_refl.
  - rewrite key_eqb_neq by (intros ->; apply Hnin; now left).
    rewrite IH; [reflexivity|]. intros Hin. apply Hnin. now right.
Qed.

Lemma dnorm_sqrt_loop (post : dict nat R) :
  forall (pre : dict nat R) (c : state),
  NoDup (Dict.keys (pre ++ post)) ->
  Forall (fun e => 0 <= snd e) post ->
  dnorm c = map (fun e => (fst e, sqrt (snd e))) pre ++ post ->
  for_ post dnorm_sqrt c
  = (Ok tt, with_dnorm c (map (fun e => (fst e, sqrt (snd e))) (pre ++ post))).
Proof.
  induction post as [|[d v] post IH]; intros pre c Hnd Hpos Hdn.
  - simpl. unfold ret. rewrite app_nil_r in *. rewrite <- Hdn. now destruct c.
  - cbn [for_]. unfold bind.
    inversion Hpos as [|? ? Hv Hpos']; subst. simpl in Hv.
    rewrite dnorm_sqrt_run by exact Hv.
    rewrite (IH (pre ++ [(d, v)])).
    + unfold with_dnorm. simpl. now rewrite <- app_assoc.
    + now rewrite <- app_assoc.
    + exact Hpos'.
    + simpl. rewrite Hdn, map_app. simpl. rewrite <- app_assoc. simpl.
      apply setitem_middle. rewrite keys_map_values.
      unfold Dict.keys in Hnd. rewrite map_app in Hnd. simpl in Hnd.
      apply NoDup_remove_2 in Hnd. intros Hin. apply Hnd.
      apply in_or_app. now left.
Qed.

Section AccumShape.
Context {V : Type} (zero : V) (add : V -> V -> V).

Lemma NoDup_keys_accum (w : nat -> nat -> V) (ps : list posting) :
  forall d : dict nat V,
  NoDup (Dict.keys d) -> NoDup (Dict.keys (accum zero add w ps d)).
Proof.
  induction ps as [|e ps IH]; intros d Hnd; [exact Hnd|].
  rewrite accum_cons. apply IH. now apply NoDup_keys_setitem.
Qed.

Lemma NoDup_keys_accum_rows (w : string -> nat -> nat -> V)
  (td : dict string (list nat)) :
  forall d : dict nat V,
  NoDup (Dict.keys d) -> NoDup (Dict.keys (accum_rows zero add w td d)).
Proof.
  induction td as [|row td IH]; intros d Hnd; [exact Hnd|].
  rewrite accum_rows_cons. apply IH. now apply NoDup_keys_accum.
Qed.

Lemma Forall_setitem (P : nat * V -> Prop) (k : nat) (v : V) (d : dict nat V) :
  (forall k', P (k', v)) -> Forall P d -> Forall P (Dict.setitem k v d).
Proof.
  intros Hv. induction d as [|[k' v'] d IH]; intros Hd; simpl.
  - constructor; [apply Hv | constructor].
  - inversion Hd as [|? ? Hp Hd']; subst.
    destruct (k =? k')%nat; constructor; auto.
Qed.

Lemma get_default_Forall (P : V -> Prop) (k : nat) (d : dict nat V) :
  P zero -> Forall (fun e => P (snd e)) d -> P (Dict.get_default k zero d).
Proof.
  intros Hz Hd. unfold Dict.get_default.
  destruct (Dict.get k d) as [v|] eqn:E; [|exact Hz].
  apply get_In in E. rewrite Forall_forall in Hd. apply (Hd (k, v) E).
Qed.

Lemma Forall_accum (P : V -> Prop) (w : nat -> nat -> V) (ps : list posting) :
  P zero -> (forall v d f, P v -> P (add v (w d f))) ->
  forall d : dict nat V,
  Forall (fun e => P (snd e)) d -> Forall (fun e => P (snd e)) (accum zero add w ps d).
Proof.
  intros Hz Hadd. induction ps as [|e ps IH]; intros d Hd; [exact Hd|].
  rewrite accum_cons. apply IH. apply Forall_setitem; [|exact Hd].
  intros k'. simpl. apply Hadd. now apply get_default_Forall.
Qed.

Lemma Forall_accum_rows (P : V -> Prop) (w : string -> nat -> nat -> V)
  (td : dict string (list nat)) :
  P zero -> (forall v t d f, P v -> P (add v (w t d f))) ->
  forall d : dict nat V,
  Forall (fun e => P (snd e)) d ->
  Forall (fun e => P (snd e)) (accum_rows zero add w td d).
Proof.
  intros Hz Hadd. induction td as [|row td IH]; intros d Hd; [exact Hd|].
  rewrite accum_rows_cons. apply IH. apply Forall_accum; auto.
Qed.
End AccumShape.

Lemma cell8_run (s : state) :
  (0 < NUM_DOCS s)%nat -> lengths_cover s ->
  exists k,
    Forall (fun l => l = []) k
    /\ cell8 s = (Ok tt, with_dnorm (grow s k) (cell8_dnorm s)).
Proof.
  intros HN Hcov. unfold cell8. unfold bind at 1, modify at 1.
  unfold bind at 1, gets at 1. unfold bind at 1, Dict.items.
  replace (with_dnorm s []) with (with_dnorm (grow s []) [])
    by now rewrite grow_nil.
  change (td_matrix (with_dnorm (grow s []) [])) with (td_matrix s).
  destruct (dnorm_rows_run s (td_matrix s) HN Hcov [] [] (Forall_nil _))
    as (k & Hk & ->).
  exists k. split; [exact Hk|].
  unfold bind, gets.
  change (dnorm (with_dnorm (grow s k) (accum_rows 0 Rplus (norm_term s) (td_matrix s) [])))
    with (accum_rows 0 Rplus (norm_term s) (td_matrix s) []).
  rewrite (dnorm_sqrt_loop _ []).
  - reflexivity.
  - simpl. apply NoDup_keys_accum_rows. constructor.
  - apply (Forall_accum_rows 0 Rplus (fun v => 0 <= v)).
    + apply Rle_refl.
    + intros v t d f Hv. unfold norm_term.
      apply Rplus_le_le_0_compat; [exact Hv | apply pow2_ge_0].
    + constructor.
  - reflexivity.
Qed.

Lemma doc_length_ge (td : dict string (list nat)) (row : string * list nat) (d : nat) :
  In row td -> (nth d (snd row) 0 <= doc_length td d)%nat.
Proof.
  induction td as [|row' td IH]; intros Hin; [destruct Hin|].
  unfold doc_length in *. simpl. destruct Hin as [->|Hin]; [lia|].
  specialize (IH Hin). lia.
Qed.

Lemma cell6_lengths_cover (s : state) : lengths_cover (cell6_result s).
Proof.
  intros row d f Hrow Hin.
  change (td_matrix (cell6_result s)) with (td_matrix s) in Hrow.
  apply positive_entries_In in Hin. destruct Hin as (_ & Hn & Hf).
  rewrite Nat.sub_0_r in Hn.
  assert (Hnth : nth d (snd row) 0%nat = f) by now apply nth_error_nth.
  pose proof (doc_length_ge (td_matrix s) row d Hrow) as Hge.
  exists (doc_length (td_matrix s) d).
  change (doclen (cell6_result s)) with (doclen (cell4_result s)).
  rewrite cell4_doclen_get.
  destruct (Nat.eqb_spec (doc_length (td_matrix s) d) 0); [lia|].
  split; [reflexivity | lia].
Qed.

(** The three cells in a row. *)
Lemma notebook_run (s : state) :
  (0 < NUM_DOCS s)%nat ->
  exists k,
    Forall (fun l => l = []) k
    /\ notebook s
       = (Ok tt, with_dnorm (grow (cell6_result s) k) (cell8_dnorm (cell6_result s))).
Proof.
  intros HN. unfold notebook, bind. rewrite cell4_run.
  change (cell6 (cell4_result s)) with (Ok tt, cell6_result s). cbv iota.
  apply cell8_run; [exact HN | apply cell6_lengths_cover].
Qed.

Lemma cell6_index_wf (s : state) (k : list (list posting)) (dn : dict nat R) :
  index_wf (with_dnorm (grow (cell6_result s) k) dn)
           (idx (with_dnorm (grow (cell6_result s) k) dn)).
Proof.
  intros t p Hget. simpl in Hget. apply get_In in Hget.
  pose proof (index_rows_range (td_matrix s) (length (heap s)) (length (heap s)) []
                (le_n _) (Forall_nil _)) as Hr.
  rewrite Forall_forall in Hr. specialize (Hr (t, p) Hget). simpl in Hr.
  simpl. rewrite !length_app, length_map. lia.
Qed.

(** X13. With [NUM_DOCS > 0], once cells 4, 6 and 8 have run, on any
    term-document matrix (rows of any length, all-zero rows, no row at all)
    and from any state, [idx] is the index over [inv_idx], every posting
    list it refers to is an allocated list object, and [td_matrix] and
    [NUM_DOCS] are what they were. *)
Theorem X13_notebook_index (s s' : state) :
  (0 < NUM_DOCS s)%nat ->
  notebook s = (Ok tt, s') ->
  idx s' = mkInvIndex (inv_idx s')
  /\ index_wf s' (idx s')
  /\ td_matrix s' = td_matrix s
  /\ NUM_DOCS s' = NUM_DOCS s.
Proof.
  intros HN Hrun. destruct (notebook_run s HN) as (k & _ & Hrun').
  rewrite Hrun' in Hrun. injection Hrun as <-.
  split; [reflexivity|]. split; [apply cell6_index_wf | now split].
Qed.

Lemma X13_notebook_index_witness :
  idx sparse_state = mkInvIndex (inv_idx sparse_state)
  /\ index_wf sparse_state (idx sparse_state)
  /\ td_matrix sparse_state = sparse_td_matrix
  /\ NUM_DOCS sparse_state = 2%nat.
Proof.
  apply (X13_notebook_index (init sparse_td_matrix 2) sparse_state).
  - simpl. lia.
  - exact sparse_notebook.
Defined.

Lemma keys_setitem_same_keys {V W : Type} (k : nat) (v : V) (w : W)
  (d1 : dict nat V) (d2 : dict nat W) :
  Dict.keys d1 = Dict.keys d2 ->
  Dict.keys (Dict.setitem k v d1) = Dict.keys (Dict.setitem k w d2).
Proof.
  intros Hk. rewrite !keys_setitem.
  destruct (Dict.get k d1) eqn:E1, (Dict.get k d2) eqn:E2.
  - exact Hk.
  - apply get_None_keys in E2. rewrite <- Hk in E2.
    apply get_None_keys in E2. congruence.
  - apply get_None_keys in E1. rewrite Hk in E1.
    apply get_None_keys in E1. congruence.
  - now rewrite Hk.
Qed.

Lemma keys_accum_same_keys {V W : Type} (z1 : V) (a1 : V -> V -> V)
  (w1 : nat -> nat -> V) (z2 : W) (a2 : W -> W -> W) (w2 : nat -> nat -> W)
  (ps : list posting) :
  forall (d1 : dict nat V) (d2 : dict nat W),
  Dict.keys d1 = Dict.keys d2 ->
  Dict.keys (accum z1 a1 w1 ps d1) = Dict.keys (accum z2 a2 w2 ps d2).
Proof.
  induction ps as [|e ps IH]; intros d1 d2 Hk; [exact Hk|].
  rewrite !accum_cons. apply IH. now apply keys_setitem_same_keys.
Qed.

Lemma keys_accum_rows_same_keys {V W : Type} (z1 : V) (a1 : V -> V -> V)
  (w1 : string -> nat -> nat -> V) (z2 : W) (a2 : W -> W -> W)
  (w2 : string -> nat -> nat -> W) (td : dict string (list nat)) :
  forall (d1 : dict nat V) (d2 : dict nat W),
  Dict.keys d1 = Dict.keys d2 ->
  Dict.keys (accum_rows z1 a1 w1 td d1) = Dict.keys (accum_rows z2 a2 w2 td d2).
Proof.
  induction td as [|row td IH]; intros d1 d2 Hk; [exact Hk|].
  rewrite !accum_rows_cons. apply IH. now apply keys_accum_same_keys.
Qed.

Lemma existsb_positive_false (td : dict string (list nat)) (d : nat) :
  existsb (fun row => (0 <? nth d (snd row) 0)%nat) td = false
  <-> forall row, In row td -> nth d (snd row) 0%nat = 0%nat.
Proof.
  split.
  - intros Hex row Hin.
    destruct (Nat.eq_dec (nth d (snd row) 0%nat) 0) as [E|Hne]; [exact E|].
    assert (Ht : existsb (fun row => (0 <? nth d (snd row) 0)%nat) td = true).
    { apply existsb_exists. exists row. split; [exact Hin|].
      apply Nat.ltb_lt. lia. }
    congruence.
  - intros Hall.
    destruct (existsb _ td) eqn:Hex; [|reflexivity].
    apply existsb_exists in Hex. destruct Hex as (row & Hin & Hpos).
    apply Nat.ltb_lt in Hpos. specialize (Hall row Hin). lia.
Qed.

(** X14. After cells 4, 6 and 8, [dnorm] has the same keys as [doclen], in
    the same order: a document has a normalizer exactly when it has a
    length, and a document whose frequencies are all 0 has neither. *)
Theorem X14_dnorm_keys (s : state) (d : nat) :
  (0 < NUM_DOCS s)%nat ->
  exists s',
    notebook s = (Ok tt, s')
    /\ Dict.keys (dnorm s') = Dict.keys (doclen s')
    /\ (Dict.get d (dnorm s') = None
        <-> forall row, In row (td_matrix s) -> nth d (snd row) 0%nat = 0%nat).
Proof.
  intros HN. destruct (notebook_run s HN) as (k & _ & Hrun).
  eexists. split; [exact Hrun|]. split.
  - simpl. unfold cell8_dnorm. rewrite keys_map_values.
    now apply keys_accum_rows_same_keys.
  - simpl. unfold cell8_dnorm. rewrite get_map_values, accum_rows_get.
    change (td_matrix (cell6_result s)) with (td_matrix s).
    rewrite <- existsb_positive_false.
    destruct (existsb _ (td_matrix s)); simpl; split; congruence.
Qed.

Lemma X14_dnorm_keys_witness :
  exists s',
    notebook (init sparse_td_matrix 2) = (Ok tt, s')
    /\ Dict.keys (dnorm s') = Dict.keys (doclen s')
    /\ (Dict.get 0%nat (dnorm s') = None
        <-> forall row, In row sparse_td_matrix -> nth 0 (snd row) 0%nat = 0%nat).
Proof.
  apply (X14_dnorm_keys (init sparse_td_matrix 2) 0). simpl. lia.
Defined.

Lemma accum_value_norms (s : state) (td : dict string (list nat)) (d : nat) :
  forall acc : R,
  accum_value Rplus (norm_term s) td d acc
  = acc + Rsum (map (fun x => x ^ 2) (map (doc_weight s d) td)).
Proof.
  induction td as [|row td IH]; intros acc.
  - simpl. now rewrite Rplus_0_r.
  - rewrite accum_value_cons, IH. simpl. unfold doc_weight at 2, norm_term.
    destruct (0 <? nth d (snd row) 0)%nat.
    + now rewrite Rplus_assoc.
    + replace (0 ^ 2) with 0 by (unfold pow; lra). now rewrite Rplus_0_l.
Qed.

(** [dnorm[d]] after cell 8, in closed form. *)
Lemma cell8_dnorm_get (s : state) (d : nat) :
  Dict.get d (cell8_dnorm s)
  = if existsb (fun row => (0 <? nth d (snd row) 0)%nat) (td_matrix s)
    then Some (sqrt (Rsum (map (fun x => x ^ 2) (map (doc_weight s d) (td_matrix s)))))
    else None.
Proof.
  unfold cell8_dnorm. rewrite get_map_values, accum_rows_get.
  destruct (existsb _ (td_matrix s)); [|reflexivity].
  simpl. rewrite accum_value_norms. unfold Dict.get_default. simpl.
  now rewrite Rplus_0_l.
Qed.

Lemma doc_weight_zero_iff (s : state) (d : nat) (row : string * list nat) :
  In row (td_matrix s) ->
  (doc_weight (cell6_result s) d row = 0
   <-> ((0 < nth d (snd row) 0)%nat -> idf_val (cell6_result s) (fst row) = 0)).
Proof.
  intros Hrow. unfold doc_weight.
  destruct (Nat.ltb_spec 0 (nth d (snd row) 0%nat)) as [Hpos|Hz].
  - pose proof (doc_length_ge (td_matrix s) row d Hrow) as Hge.
    assert (Hdl : Dict.get_default d 0%nat (doclen (cell6_result s))
                  = doc_length (td_matrix s) d).
    { unfold Dict.get_default.
      change (doclen (cell6_result s)) with (doclen (cell4_result s)).
      rewrite cell4_doclen_get.
      destruct (Nat.eqb_spec (doc_length (td_matrix s) d) 0); [lia | reflexivity]. }
    rewrite Hdl.
    assert (Hr : 0 < INR (nth d (snd row) 0%nat) / INR (doc_length (td_matrix s) d)).
    { apply Rdiv_lt_0_compat; apply lt_0_INR; lia. }
    split.
    + intros E _. apply Rmult_integral in E. destruct E as [E|E]; [lra | exact E].
    + intros Hi. rewrite (Hi Hpos). apply Rmult_0_r.
  - split; [intros _ Hpos; lia | reflexivity].
Qed.

Lemma cell8_dnorm_zero_iff (s : state) (d : nat) :
  sqrt (Rsum (map (fun x => x ^ 2)
                  (map (doc_weight (cell6_result s) d) (td_matrix s)))) = 0
  <-> forall row, In row (td_matrix s) -> (0 < nth d (snd row) 0)%nat ->
                  idf_val (cell6_result s) (fst row) = 0.
Proof.
  split.
  - intros Hz row Hrow. apply doc_weight_zero_iff; [exact Hrow|].
    apply sqrt_eq_0 in Hz; [|apply Rsum_squares_nonneg].
    apply Rsum_squares_zero in Hz. rewrite Forall_map, Forall_forall in Hz.
    now apply Hz.
  - intros Hall.
    replace (Rsum _) with 0; [apply sqrt_0|].
    symmetry. apply Rsum_squares_zero. rewrite Forall_map, Forall_forall.
    intros row Hrow. apply doc_weight_zero_iff; [exact Hrow|]. now apply Hall.
Qed.

Lemma existsb_positive_true (td : dict string (list nat)) (d : nat)
  (row : string * list nat) :
  In row td -> (0 < nth d (snd row) 0)%nat ->
  existsb (fun row => (0 <? nth d (snd row) 0)%nat) td = true.
Proof.
  intros Hin Hpos. apply existsb_exists. exists row. split; [exact Hin|].
  now apply Nat.ltb_lt.
Qed.

(** X15. With [NUM_DOCS > 0], once cells 4, 6 and 8 have run, a document
    that contains a term has a normalizer, which is not negative; it is 0
    when [idf] is 0 for every term the document contains (each of its terms
    occurs in [NUM_DOCS] documents, as in a collection of one document):
    such a document makes [score_dt] divide by zero. *)
Theorem X15_dnorm_zero_when_idf_zero (s s' : state) (d : nat)
  (row0 : string * list nat) :
  (0 < NUM_DOCS s)%nat ->
  notebook s = (Ok tt, s') ->
  In row0 (td_matrix s) -> (0 < nth d (snd row0) 0)%nat ->
  exists v,
    Dict.get d (dnorm s') = Some v
    /\ 0 <= v
    /\ ((forall row, In row (td_matrix s) -> (0 < nth d (snd row) 0)%nat ->
                     fst (idf (fst row) s') = Ok 0)
        -> v = 0).
Proof.
  intros HN Hrun Hrow0 Hpos0. destruct (notebook_run s HN) as (k & Hk & Hrun').
  rewrite Hrun' in Hrun. injection Hrun as <-.
  eexists. split.
  - simpl. rewrite cell8_dnorm_get.
    change (td_matrix (cell6_result s)) with (td_matrix s).
    now rewrite (existsb_positive_true _ _ row0 Hrow0 Hpos0).
  - split; [apply sqrt_pos|].
    change (td_matrix (cell6_result s)) with (td_matrix s).
    intros Hall. apply cell8_dnorm_zero_iff. intros row Hrow Hpos.
    rewrite <- (idf_val_frame (cell6_result s) k (cell8_dnorm (cell6_result s)))
      by exact Hk.
    apply idf_fst_zero; [exact HN | now apply Hall].
Qed.

Lemma X15_dnorm_zero_when_idf_zero_witness :
  exists s',
    notebook (init lone_td_matrix 1) = (Ok tt, s')
    /\ Dict.get 0%nat (dnorm s') = Some 0.
Proof.
  destruct (notebook_run (init lone_td_matrix 1) (Nat.lt_0_succ 0))
    as (k & Hk & Hrun).
  eexists. split; [exact Hrun|].
  destruct (X15_dnorm_zero_when_idf_zero (init lone_td_matrix 1) _ 0
              ("a"%string, [1]%nat) (Nat.lt_0_succ 0) Hrun)
    as (v & Hget & _ & Hz).
  - now left.
  - simpl. lia.
  - rewrite Hget. f_equal. apply Hz. intros row [<-|[]] _.
    apply idf_fst_zero; [simpl; lia|].
    rewrite idf_val_frame by exact Hk. cbn.
    replace (INR 1 / INR 1) with 1 by (unfold INR; field). apply ln_1.
Defined.

(** ** The cells together *)

Lemma not_all_zero_exists {A : Type} (f : A -> R) (c : A -> bool) (l : list A) :
  ~ (forall x, In x l -> c x = true -> f x = 0) ->
  exists x, In x l /\ c x = true /\ f x <> 0.
Proof.
  intros Hn.
  destruct (Forall_Exists_dec (fun x => c x = true -> f x = 0)) with (l := l)
    as [Hall|Hex].
  - intros x. destruct (c x); [|left; discriminate].
    destruct (Req_dec_T (f x) 0) as [E|E]; [left; now intros _|].
    right. intros H. now apply E, H.
  - exfalso. apply Hn. rewrite Forall_forall in Hall. exact Hall.
  - apply Exists_exists in Hex. destruct Hex as (x & Hin & Hx).
    exists x. split; [exact Hin|].
    destruct (c x); [|exfalso; apply Hx; discriminate].
    split; [reflexivity|]. intros E. apply Hx. now intros _.
Qed.

(** X16. From the matrix to the scores: with [NUM_DOCS > 0], once cells 4,
    6 and 8 have built the tables, [score_dt(query, idx)] returns a mapping
    only if some term of the query has a nonzero [idf] and every document in
    [0, NUM_DOCS) contains a term with a nonzero [idf].  So with an empty
    query, with a query of unknown or ubiquitous terms only, or with a
    document that has no term or ubiquitous terms only, no mapping is
    returned. *)
Theorem X16_score_dt_returns_only_if (s s' s'' : state) (query : list string)
  (m : dict nat R) :
  (0 < NUM_DOCS s)%nat ->
  notebook s = (Ok tt, s') ->
  score_dt query (idx s') s' = (Ok m, s'') ->
  (exists t, In t query /\ fst (idf t s') <> Ok 0)
  /\ forall d, (d < NUM_DOCS s)%nat ->
       exists row, In row (td_matrix s)
                   /\ (0 < nth d (snd row) 0)%nat
                   /\ fst (idf (fst row) s') <> Ok 0.
Proof.
  intros HN Hnb Hsc. destruct (notebook_run s HN) as (k & Hk & Hrun).
  rewrite Hrun in Hnb. injection Hnb as <-.
  set (s6 := cell6_result s) in *.
  set (s' := with_dnorm (grow s6 k) (cell8_dnorm s6)) in *.
  assert (HN' : (0 < NUM_DOCS s')%nat) by exact HN.
  assert (Hidf : forall t, fst (idf t s') <> Ok 0 <-> idf_val s6 t <> 0).
  { intros t. rewrite (idf_fst_zero t s' HN'). unfold s'.
    now rewrite idf_val_frame by exact Hk. }
  destruct (query_weights_total query s' HN') as (s1 & Hq & _).
  assert (Hs : forall d, (d < NUM_DOCS s')%nat ->
                 scorable s' (sqrt (snd (weights_val s' query (Counter query)))) d).
  { apply (score_dt_returns_iff query (idx s') s' s1 _ _ Hq). now exists m, s''. }
  assert (Hqn : sqrt (snd (weights_val s' query (Counter query))) = 0
                <-> forall t, In t query -> idf_val s6 t = 0).
  { rewrite qnorm_val_zero_iff. unfold s'.
    split; intros Hall t Hin; specialize (Hall t Hin);
      now rewrite idf_val_frame in * by exact Hk. }
  set (qn := sqrt (snd (weights_val s' query (Counter query)))) in *.
  assert (Hget : forall d, Dict.get d (dnorm s') = Dict.get d (cell8_dnorm s6))
    by reflexivity.
  split.
  - destruct (Hs 0%nat HN) as (v & _ & Hne).
    assert (Hq0 : qn <> 0) by (intros E; apply Hne; rewrite E; apply Rmult_0_l).
    destruct (not_all_zero_exists (idf_val s6) (fun _ => true) query)
      as (t & Hin & _ & Ht).
    { intros Hall. apply Hq0, Hqn. intros t Hin. now apply Hall. }
    exists t. split; [exact Hin | now apply Hidf].
  - intros d Hd. destruct (Hs d Hd) as (v & Hv & Hne).
    rewrite Hget, cell8_dnorm_get in Hv.
    change (td_matrix s6) with (td_matrix s) in Hv.
    destruct (existsb _ (td_matrix s)) eqn:Hex; [|discriminate].
    injection Hv as <-.
    destruct (not_all_zero_exists (fun row => idf_val s6 (fst row))
                (fun row => (0 <? nth d (snd row) 0)%nat) (td_matrix s))
      as (row & Hrow & Hpos & Hi).
    { intros Hall. apply Hne.
      replace (sqrt _) with 0; [apply Rmult_0_r|]. symmetry.
      apply cell8_dnorm_zero_iff. intros row Hrow Hpos.
      apply Hall; [exact Hrow | now apply Nat.ltb_lt]. }
    exists row. split; [exact Hrow|]. split; [now apply Nat.ltb_lt|].
    now apply Hidf.
Qed.

Lemma X16_score_dt_returns_only_if_witness :
  (exists t, In t example_query /\ fst (idf t example_state) <> Ok 0)
  /\ forall d, (d < 5)%nat ->
       exists row, In row example_td_matrix
                   /\ (0 < nth d (snd row) 0)%nat
                   /\ fst (idf (fst row) example_state) <> Ok 0.
Proof.
  apply (X16_score_dt_returns_only_if (init example_td_matrix 5) example_state
           example_final example_query (scores example_locals)).
  - simpl. lia.
  - exact example_notebook.
  - rewrite score_dt_of_locals, example_score_dt_locals. reflexivity.
Defined.

(** ** References and copies *)

Lemma nth_update_same {A : Type} (l : list A) :
  forall (n : nat) (x z : A), (n < length l)%nat -> nth n (update n x l) z = x.
Proof.
  induction l as [|y l IH]; intros n x z Hn; simpl in Hn; [lia|].
  destruct n as [|n]; simpl; [reflexivity|]. apply IH. lia.
Qed.

Lemma nth_update_other {A : Type} (l : list A) :
  forall (n m : nat) (x z : A), n <> m -> nth m (update n x l) z = nth m l z.
Proof.
  induction l as [|y l IH]; intros n m x z Hne; [now destruct n|].
  destruct n as [|n], m as [|m]; simpl; try reflexivity; try lia.
  apply IH. lia.
Qed.

(** X17. For a term of the index, [postings] hands out the index's own list
    object: appending to what it returns changes the posting list the index
    holds, whereas appending to a [list(...)] copy of it, as [score_dt]
    makes, leaves the index as it was. *)
Theorem X17_postings_is_a_reference (index : InvIndex) (term : string)
  (p0 : loc) (x : posting) (s : state) :
  Dict.get term (idx_contents index) = Some p0 ->
  (p0 < length (heap s))%nat ->
  (exists s',
     (p <- postings index term ;; append p x) s = (Ok tt, s')
     /\ index_postings s' index term = index_postings s index term ++ [x])
  /\ (exists s',
        (p <- postings index term ;; c <- list_copy p ;; append c x) s = (Ok tt, s')
        /\ index_postings s' index term = index_postings s index term).
Proof.
  intros Hg Hp.
  assert (Hlen : length (heap (grow s [[]])) = S (length (heap s))).
  { unfold grow. simpl. rewrite length_app. simpl. lia. }
  split.
  - eexists. split.
    + unfold bind. rewrite postings_run. unfold Dict.get_default. rewrite Hg.
      reflexivity.
    + unfold index_postings. rewrite Hg. unfold contents at 1. simpl.
      rewrite nth_update_same by (rewrite length_app; simpl; lia).
      f_equal. apply (contents_grow_old s [[]] p0 Hp).
  - eexists. split.
    + unfold bind. rewrite postings_run. unfold Dict.get_default. rewrite Hg.
      reflexivity.
    + unfold index_postings. rewrite Hg. unfold contents at 1. simpl.
      rewrite nth_update_other by (rewrite length_app; simpl; lia).
      rewrite app_nth1 by (rewrite length_app; simpl; lia).
      apply app_nth1. exact Hp.
Qed.

Lemma X17_postings_is_a_reference_witness :
  (exists s',
     (p <- postings (idx example_state) "roast" ;; append p (2, 7)%nat) example_state
     = (Ok tt, s')
     /\ index_postings s' (idx example_state) "roast"
        = index_postings example_state (idx example_state) "roast" ++ [(2, 7)%nat])
  /\ (exists s',
        (p <- postings (idx example_state) "roast" ;; c <- list_copy p ;;
         append c (2, 7)%nat) example_state = (Ok tt, s')
        /\ index_postings s' (idx example_state) "roast"
           = index_postings example_state (idx example_state) "roast").
Proof.
  apply (X17_postings_is_a_reference (idx example_state) "roast" 5 (2, 7)%nat
           example_state).
  - reflexivity.
  - simpl. lia.
Defined.

(** ** Document frequencies *)

Lemma positive_entries_length (vec : list nat) :
  forall a, length (positive_entries a vec)
            = length (filter (fun f => (0 <? f)%nat) vec).
Proof.
  induction vec as [|f vec IH]; intros a; [reflexivity|].
  rewrite positive_entries_cons. simpl.
  destruct (0 <? f)%nat; simpl; now rewrite IH.
Qed.

(** X18. After cells 4, 6 and 8 on a matrix with distinct terms, the
    document frequency [idf] uses for the term of a row is the number of
    documents in which the term's frequency is positive: [idf] returns 0
    when there is none and [ln (NUM_DOCS / that number)] otherwise. *)
Theorem X18_idf_counts_documents (s : state) (term : string) (vec : list nat) :
  (0 < NUM_DOCS s)%nat ->
  NoDup (Dict.keys (td_matrix s)) ->
  In (term, vec) (td_matrix s) ->
  exists s' s'',
    notebook s = (Ok tt, s')
    /\ idf term s'
       = (Ok (if (length (filter (fun f => (0 <? f)%nat) vec) =? 0)%nat then 0
              else ln (INR (NUM_DOCS s)
                       / INR (length (filter (fun f => (0 <? f)%nat) vec)))), s'').
Proof.
  intros HN Hnd Hin. destruct (notebook_run s HN) as (k & Hk & Hrun).
  apply In_nth_error in Hin. destruct Hin as [i Hi].
  destruct (cell4_row_contents s term vec i Hnd Hi) as [Hg Hc].
  set (s' := with_dnorm (grow (cell6_result s) k) (cell8_dnorm (cell6_result s))) in *.
  assert (Hdf : df s' term = length (filter (fun f => (0 <? f)%nat) vec)).
  { change (df s' term) with (df (grow (cell6_result s) k) term).
    rewrite (df_extends_empty (cell6_result s)) by now exists k.
    unfold df.
    change (idx_contents (idx (cell6_result s))) with (inv_idx (cell4_result s)).
    rewrite Hg.
    change (contents (cell6_result s) (length (heap s) + i))
      with (contents (cell4_result s) (length (heap s) + i)).
    rewrite Hc. apply positive_entries_length. }
  destruct (idf_cases term s') as (k' & _ & Hidf).
  exists s', (grow s' k'). split; [exact Hrun|].
  rewrite Hidf. unfold idf_outcome. rewrite Hdf.
  change (NUM_DOCS s') with (NUM_DOCS s).
  destruct (length (filter (fun f => (0 <? f)%nat) vec) =? 0)%nat; [reflexivity|].
  destruct (Nat.eqb_spec (NUM_DOCS s) 0); [lia | reflexivity].
Qed.

Lemma X18_idf_counts_documents_witness :
  exists s' s'',
    notebook (init example_td_matrix 5) = (Ok tt, s')
    /\ idf "recipe" s' = (Ok (ln (INR 5 / INR 3)), s'').
Proof.
  apply (X18_idf_counts_documents (init example_td_matrix 5) "recipe"
           [0; 0; 1; 1; 1]%nat).
  - simpl. lia.
  - simpl. repeat constructor; simpl; intuition discriminate.
  - simpl. do 4 right. now left.
Defined.

(** * The single pass over the posting lists *)

















